(** * The Loki log window of true-love-server (static/js/useLokiLogs.js)

    A shallow embedding of the [useLokiLogs] composable and the properties
    of its log window: the merge step of [fetchLokiLogs], the three loaders
    [initLokiLogs], [loadOlderLogs], [loadNewerLogs], [clearLokiLogs] and
    [toggleServiceFilter].

    The repository carries two builds of the composable: one attached to
    [window] and one exported from an ES module.  They differ in the page
    size handed to the API and in the scan direction of two loaders; the
    embedding takes the build as a parameter.

    The loaders are [async] functions.  Each one is embedded as the code
    that runs up to its [await] and the code that runs after it; a machine
    with a list of suspended frames interleaves them the way the event loop
    may.

    Beside the composable the file embeds what it works with: [request]
    and the URL of [api.fetchLokiLogs] (api.js), [showToast] (useToast.js) and
    [switchTab] of the main entry.  Not embedded: [scrollToTop] and
    [scrollToBottom] (they only scroll), the confirm dialog and the listener
    page.  Timestamps are integers, as the backend sends them. *)

From stdpp Require Import base decidable option list numbers strings pretty gmap sorting.
From Stdlib Require Import ZArith Lia Ascii.

Local Open Scope Z_scope.

(** ** Data model *)

(** One log line as the backend returns it. *)
Record LogEntry := mkLogEntry {
  timestamp : Z;
  service : string;
  raw : string;
  time_str : string
}.

Global Instance LogEntry_eq_dec : EqDecision LogEntry.
Proof. solve_decision. Defined.

(** The [direction] argument of the range query. *)
Inductive Direction := forward | backward.

Global Instance Direction_eq_dec : EqDecision Direction.
Proof. solve_decision. Defined.

(** The two builds of the composable found in the repository. *)
Inductive Build :=
| GlobalBuild   (* window.useLokiLogs = function(showToast) { ... } *)
| ModuleBuild.  (* export function useLokiLogs(showToast) { ... }  *)

(** Page size handed to [api.fetchLokiLogs]. *)
Definition pageLimit (b : Build) : Z :=
  match b with GlobalBuild => 50 | ModuleBuild => 500 end.

(** Direction literal in [initLokiLogs]. *)
Definition initDirection (b : Build) : Direction :=
  match b with GlobalBuild => backward | ModuleBuild => forward end.

(** Direction literal in [loadOlderLogs]. *)
Definition olderDirection (b : Build) : Direction :=
  match b with GlobalBuild => backward | ModuleBuild => forward end.

(** The reactive state of the composable: one field per [ref], and the
    timer handle [lokiPollTimer] as "armed or null". *)
Record Store := mkStore {
  lokiServices : list string;
  lokiServiceFilter : list string;
  lokiLogs : list LogEntry;
  lokiLoading : bool;
  lokiLoadingOlder : bool;
  lokiLoadingNewer : bool;
  lokiAutoScroll : bool;
  lokiPolling : bool;
  lokiCanLoadOlder : bool;
  lokiPollTimer : bool;
  lokiEarliestMs : Z;
  lokiLatestMs : Z
}.

(** The state right after [useLokiLogs(showToast)] has run. *)
Definition initialStore : Store :=
  {| lokiServices := ["ai"; "base"; "server"]%string;
     lokiServiceFilter := ["ai"; "base"; "server"]%string;
     lokiLogs := [];
     lokiLoading := false;
     lokiLoadingOlder := false;
     lokiLoadingNewer := false;
     lokiAutoScroll := true;
     lokiPolling := false;
     lokiCanLoadOlder := true;
     lokiPollTimer := false;
     lokiEarliestMs := 0;
     lokiLatestMs := 0 |}.

(** Assignments to one [ref]. *)
Definition set_lokiServiceFilter (v : list string) (s : Store) : Store :=
  mkStore (lokiServices s) v (lokiLogs s) (lokiLoading s) (lokiLoadingOlder s)
    (lokiLoadingNewer s) (lokiAutoScroll s) (lokiPolling s) (lokiCanLoadOlder s)
    (lokiPollTimer s) (lokiEarliestMs s) (lokiLatestMs s).

Definition set_lokiLogs (v : list LogEntry) (s : Store) : Store :=
  mkStore (lokiServices s) (lokiServiceFilter s) v (lokiLoading s) (lokiLoadingOlder s)
    (lokiLoadingNewer s) (lokiAutoScroll s) (lokiPolling s) (lokiCanLoadOlder s)
    (lokiPollTimer s) (lokiEarliestMs s) (lokiLatestMs s).

Definition set_lokiLoading (v : bool) (s : Store) : Store :=
  mkStore (lokiServices s) (lokiServiceFilter s) (lokiLogs s) v (lokiLoadingOlder s)
    (lokiLoadingNewer s) (lokiAutoScroll s) (lokiPolling s) (lokiCanLoadOlder s)
    (lokiPollTimer s) (lokiEarliestMs s) (lokiLatestMs s).

Definition set_lokiLoadingOlder (v : bool) (s : Store) : Store :=
  mkStore (lokiServices s) (lokiServiceFilter s) (lokiLogs s) (lokiLoading s) v
    (lokiLoadingNewer s) (lokiAutoScroll s) (lokiPolling s) (lokiCanLoadOlder s)
    (lokiPollTimer s) (lokiEarliestMs s) (lokiLatestMs s).

Definition set_lokiLoadingNewer (v : bool) (s : Store) : Store :=
  mkStore (lokiServices s) (lokiServiceFilter s) (lokiLogs s) (lokiLoading s)
    (lokiLoadingOlder s) v (lokiAutoScroll s) (lokiPolling s) (lokiCanLoadOlder s)
    (lokiPollTimer s) (lokiEarliestMs s) (lokiLatestMs s).

Definition set_lokiAutoScroll (v : bool) (s : Store) : Store :=
  mkStore (lokiServices s) (lokiServiceFilter s) (lokiLogs s) (lokiLoading s)
    (lokiLoadingOlder s) (lokiLoadingNewer s) v (lokiPolling s) (lokiCanLoadOlder s)
    (lokiPollTimer s) (lokiEarliestMs s) (lokiLatestMs s).

Definition set_lokiPolling (v : bool) (s : Store) : Store :=
  mkStore (lokiServices s) (lokiServiceFilter s) (lokiLogs s) (lokiLoading s)
    (lokiLoadingOlder s) (lokiLoadingNewer s) (lokiAutoScroll s) v (lokiCanLoadOlder s)
    (lokiPollTimer s) (lokiEarliestMs s) (lokiLatestMs s).

Definition set_lokiCanLoadOlder (v : bool) (s : Store) : Store :=
  mkStore (lokiServices s) (lokiServiceFilter s) (lokiLogs s) (lokiLoading s)
    (lokiLoadingOlder s) (lokiLoadingNewer s) (lokiAutoScroll s) (lokiPolling s) v
    (lokiPollTimer s) (lokiEarliestMs s) (lokiLatestMs s).

Definition set_lokiPollTimer (v : bool) (s : Store) : Store :=
  mkStore (lokiServices s) (lokiServiceFilter s) (lokiLogs s) (lokiLoading s)
    (lokiLoadingOlder s) (lokiLoadingNewer s) (lokiAutoScroll s) (lokiPolling s)
    (lokiCanLoadOlder s) v (lokiEarliestMs s) (lokiLatestMs s).

Definition set_lokiEarliestMs (v : Z) (s : Store) : Store :=
  mkStore (lokiServices s) (lokiServiceFilter s) (lokiLogs s) (lokiLoading s)
    (lokiLoadingOlder s) (lokiLoadingNewer s) (lokiAutoScroll s) (lokiPolling s)
    (lokiCanLoadOlder s) (lokiPollTimer s) v (lokiLatestMs s).

Definition set_lokiLatestMs (v : Z) (s : Store) : Store :=
  mkStore (lokiServices s) (lokiServiceFilter s) (lokiLogs s) (lokiLoading s)
    (lokiLoadingOlder s) (lokiLoadingNewer s) (lokiAutoScroll s) (lokiPolling s)
    (lokiCanLoadOlder s) (lokiPollTimer s) (lokiEarliestMs s) v.

(** What the composable does to the outside world.  [ApiFetch] is the call
    [api.fetchLokiLogs(startMs, endMs, limit, direction)]; its first argument
    is a ghost tag naming the loader that issued it. *)
Inductive Caller := InitCaller | OlderCaller | NewerCaller.

Global Instance Caller_eq_dec : EqDecision Caller.
Proof. solve_decision. Defined.

Inductive Effect :=
| ApiFetch (by_ : Caller) (startMs endMs limit : Z) (direction : Direction)
| ConsoleError (message : string)
| Toast (message kind : string)
| ScrollToBottom
| KeepScrollPosition.

Global Instance Effect_eq_dec : EqDecision Effect.
Proof. solve_decision. Defined.

(** How the promise of [api.fetchLokiLogs] settles.  [request] in api.js
    throws on a transport error, on a body that is not JSON and on
    [data.code !== 0]: all of these are [Rejected] with the error's
    message.  Otherwise the decoded body is returned; [Fulfilled d] keeps of
    it what [fetchLokiLogs] reads: [result.data] ([None] when falsy) and
    [result.data.logs] ([None] when falsy, an array otherwise).  A body
    whose [data.logs] is truthy and not an array of entries is not of this
    type: the merge throws on it before it assigns anything, and the [catch]
    of line 87 answers as it does for a rejection. *)
Inductive ApiResult :=
| Rejected (message : string)
| Fulfilled (data : option (option (list LogEntry))).

(** ** The merge step *)

(** [l.timestamp + '|' + l.raw]: the number printed in decimal, a bar,
    the raw line. *)
Definition key (l : LogEntry) : string :=
  pretty (timestamp l) +:+ "|" +:+ raw l.

(** [Array.prototype.sort((a, b) => a.timestamp - b.timestamp)].  The
    built-in sort is stable; so is this insertion sort: an element is put in
    front of the first element that is not smaller, and the elements are
    inserted from the right. *)
Fixpoint insert_by_timestamp (x : LogEntry) (l : list LogEntry) : list LogEntry :=
  match l with
  | [] => [x]
  | y :: l' =>
      if decide (timestamp x - timestamp y ≤ 0) then x :: y :: l'
      else y :: insert_by_timestamp x l'
  end.

Definition sort_by_timestamp (l : list LogEntry) : list LogEntry :=
  foldr insert_by_timestamp [] l.

(** Lines 79-82: the bounds are read off the two ends of the sorted array. *)
Definition updateBounds (s : Store) : Store :=
  match head (lokiLogs s), last (lokiLogs s) with
  | Some first, Some final =>
      set_lokiLatestMs (timestamp final) (set_lokiEarliestMs (timestamp first) s)
  | _, _ => s
  end.

(** Lines 52-84: what [fetchLokiLogs] does with [result.data.logs]. *)
Definition mergeLogs (newLogs : list LogEntry) (prepend : bool) (s : Store)
  : Store * nat :=
  if decide (length newLogs = 0%nat) then
    ((if prepend then set_lokiCanLoadOlder false s else s), 0%nat)
  else
    let existingKeys : gset string := list_to_set (key <$> lokiLogs s) in
    let uniqueNewLogs := filter (λ l, key l ∉ existingKeys) newLogs in
    if decide (length uniqueNewLogs = 0%nat) then (s, 0%nat)
    else
      let s1 :=
        if prepend then set_lokiLogs (uniqueNewLogs ++ lokiLogs s) s
        else set_lokiLogs (lokiLogs s ++ uniqueNewLogs) s in
      let s2 := set_lokiLogs (sort_by_timestamp (lokiLogs s1)) s1 in
      (updateBounds s2, length uniqueNewLogs).

(** [fetchLokiLogs] from the point where [await api.fetchLokiLogs(...)]
    settles: the new state, the returned count, and what was logged and
    toasted. *)
Definition fetchLokiLogs_resume (prepend : bool) (r : ApiResult) (s : Store)
  : Store * nat * list Effect :=
  match r with
  | Fulfilled (Some (Some newLogs)) =>
      let '(s', n) := mergeLogs newLogs prepend s in (s', n, [])
  | Fulfilled _ => (s, 0%nat, [])
  | Rejected message =>
      (s, 0%nat, [ConsoleError message; Toast message "error"])
  end.

(** ** The loaders, split at their [await] *)

(** The arguments of one call
    [fetchLokiLogs(startMs, endMs, direction, prepend)]. *)
Record FetchCall := mkFetchCall {
  startMs : Z;
  endMs : Z;
  direction : Direction;
  prepend : bool
}.

(** Line 49, up to the [await]: the outbound query. *)
Definition fetchLokiLogs_begin (b : Build) (by_ : Caller) (c : FetchCall) : Effect :=
  ApiFetch by_ (startMs c) (endMs c) (pageLimit b) (direction c).

(** [initLokiLogs] up to [await fetchLokiLogs(...)]; [now] is what
    [Date.now()] returns. *)
Definition initLokiLogs_begin (b : Build) (now : Z) (s : Store) : Store * FetchCall :=
  let s1 := set_lokiLoading true s in
  let s2 := set_lokiLogs [] s1 in
  let s3 := set_lokiCanLoadOlder true s2 in
  let oneHourAgo := now - 60 * 60 * 1000 in
  (s3, mkFetchCall oneHourAgo now (initDirection b) false).

(** [initLokiLogs] after the [await]. *)
Definition initLokiLogs_resume (s : Store) : Store * list Effect :=
  (set_lokiLoading false s, [ScrollToBottom]).

(** [loadOlderLogs] up to its [await]; [None] is the early [return]. *)
Definition loadOlderLogs_begin (b : Build) (s : Store) : option (Store * FetchCall) :=
  if lokiLoadingOlder s || negb (lokiCanLoadOlder s)
     || bool_decide (length (lokiLogs s) = 0%nat)
  then None
  else
    let s1 := set_lokiLoadingOlder true s in
    let endMs := lokiEarliestMs s1 - 1 in
    let startMs := endMs - 60 * 60 * 1000 in
    Some (s1, mkFetchCall startMs endMs (olderDirection b) true).

(** [loadOlderLogs] after the [await], with the count [fetchLokiLogs]
    returned.  The module build also schedules the scroll correction. *)
Definition loadOlderLogs_resume (b : Build) (count : nat) (s : Store)
  : Store * list Effect :=
  let s1 := if decide (count = 0%nat) then set_lokiCanLoadOlder false s else s in
  (set_lokiLoadingOlder false s1,
   match b with GlobalBuild => [] | ModuleBuild => [KeepScrollPosition] end).

(** [loadNewerLogs] up to its [await]; [None] is the early [return].
    [now1] is the reading of [Date.now()] in the [startMs] expression (taken
    only when [lokiLatestMs] is not positive), [now2] the one for [endMs]. *)
Definition loadNewerLogs_begin (now1 now2 : Z) (s : Store) : option (Store * FetchCall) :=
  if lokiLoadingNewer s then None
  else
    let s1 := set_lokiLoadingNewer true s in
    let startMs :=
      if decide (lokiLatestMs s1 > 0) then lokiLatestMs s1 + 1
      else now1 - 60 * 60 * 1000 in
    let endMs := now2 in
    Some (s1, mkFetchCall startMs endMs forward false).

(** [loadNewerLogs] after the [await]; the last component is the value
    the function returns. *)
Definition loadNewerLogs_resume (count : nat) (s : Store) : Store * list Effect * nat :=
  let effs := if bool_decide (0 < count)%nat && lokiAutoScroll s
              then [ScrollToBottom] else [] in
  (set_lokiLoadingNewer false s, effs, count).

(** [clearLokiLogs]. *)
Definition clearLokiLogs (s : Store) : Store :=
  let s1 := set_lokiLogs [] s in
  let s2 := set_lokiEarliestMs 0 s1 in
  let s3 := set_lokiLatestMs 0 s2 in
  set_lokiCanLoadOlder true s3.

(** [Array.prototype.indexOf] on strings: the first position, or -1. *)
Definition indexOf (svc : string) (l : list string) : Z :=
  match list_find (λ x, x = svc) l with
  | Some (i, _) => Z.of_nat i
  | None => -1
  end.

(** [toggleServiceFilter]; [splice(idx, 1)] is [delete], [push] appends. *)
Definition toggleServiceFilter (svc : string) (s : Store) : Store :=
  let idx := indexOf svc (lokiServiceFilter s) in
  if decide (idx > -1) then
    if decide (1 < length (lokiServiceFilter s))%nat
    then set_lokiServiceFilter (delete (Z.to_nat idx) (lokiServiceFilter s)) s
    else s
  else set_lokiServiceFilter (lokiServiceFilter s ++ [svc]) s.

(** The computed [filteredLokiLogs]. *)
Definition filteredLokiLogs (s : Store) : list LogEntry :=
  if decide (length (lokiServiceFilter s) = length (lokiServices s)) then lokiLogs s
  else filter (λ log, service log ∈ lokiServiceFilter s) (lokiLogs s).

(** [toggleLokiAutoScroll]. *)
Definition toggleLokiAutoScroll (s : Store) : Store * list Effect :=
  let s1 := set_lokiAutoScroll (negb (lokiAutoScroll s)) s in
  (s1, if lokiAutoScroll s1 then [ScrollToBottom] else []).

(** [startLokiPolling] and [stopLokiPolling]: the interval timer is armed
    or not. *)
Definition startLokiPolling (s : Store) : Store :=
  if lokiPollTimer s then s
  else set_lokiPollTimer true (set_lokiPolling true s).

Definition stopLokiPolling (s : Store) : Store :=
  let s1 := if lokiPollTimer s then set_lokiPollTimer false s else s in
  set_lokiPolling false s1.

(** ** Each loader run alone

    The loader is called, the query settles with [r], and the loader runs to
    its end with nothing else scheduled in between. *)

Definition initLokiLogs_seq (b : Build) (now : Z) (r : ApiResult) (s : Store)
  : Store * list Effect :=
  let '(s1, c) := initLokiLogs_begin b now s in
  let '(s2, _, e2) := fetchLokiLogs_resume (prepend c) r s1 in
  let '(s3, e3) := initLokiLogs_resume s2 in
  (s3, fetchLokiLogs_begin b InitCaller c :: e2 ++ e3).

Definition loadOlderLogs_seq (b : Build) (r : ApiResult) (s : Store)
  : Store * list Effect :=
  match loadOlderLogs_begin b s with
  | None => (s, [])
  | Some (s1, c) =>
      let '(s2, count, e2) := fetchLokiLogs_resume (prepend c) r s1 in
      let '(s3, e3) := loadOlderLogs_resume b count s2 in
      (s3, fetchLokiLogs_begin b OlderCaller c :: e2 ++ e3)
  end.

(** The last component is the returned value: [None] is [undefined]. *)
Definition loadNewerLogs_seq (b : Build) (now1 now2 : Z) (r : ApiResult) (s : Store)
  : Store * list Effect * option nat :=
  match loadNewerLogs_begin now1 now2 s with
  | None => (s, [], None)
  | Some (s1, c) =>
      let '(s2, count, e2) := fetchLokiLogs_resume (prepend c) r s1 in
      let '(s3, e3, ret) := loadNewerLogs_resume count s2 in
      (s3, fetchLokiLogs_begin b NewerCaller c :: e2 ++ e3, Some ret)
  end.

(** ** The event loop

    A suspended loader is a [Task]: either its query is outstanding
    ([AwaitingApi], holding the arguments of the suspended [fetchLokiLogs]
    frame), or [fetchLokiLogs] has returned and the loader's own
    continuation is queued ([AwaitingFetch]).  Any queued continuation may
    run next; the real microtask queue allows fewer orders, so every property
    of all runs of this machine holds of the program. *)
Inductive Task :=
| AwaitingApi (caller : Caller) (call : FetchCall)
| AwaitingFetch (caller : Caller) (count : nat).

Record Machine := mkMachine {
  store : Store;
  pending : list Task;
  effects : list Effect
}.

Definition initialMachine : Machine := mkMachine initialStore [] [].

(** A call of a loader from the page, the timer or the scroll handler. *)
Definition call_initLokiLogs (b : Build) (now : Z) (m : Machine) : Machine :=
  let '(s, c) := initLokiLogs_begin b now (store m) in
  mkMachine s (pending m ++ [AwaitingApi InitCaller c])
    (effects m ++ [fetchLokiLogs_begin b InitCaller c]).

Definition call_loadOlderLogs (b : Build) (m : Machine) : Machine :=
  match loadOlderLogs_begin b (store m) with
  | None => m
  | Some (s, c) =>
      mkMachine s (pending m ++ [AwaitingApi OlderCaller c])
        (effects m ++ [fetchLokiLogs_begin b OlderCaller c])
  end.

Definition call_loadNewerLogs (b : Build) (now1 now2 : Z) (m : Machine) : Machine :=
  match loadNewerLogs_begin now1 now2 (store m) with
  | None => m
  | Some (s, c) =>
      mkMachine s (pending m ++ [AwaitingApi NewerCaller c])
        (effects m ++ [fetchLokiLogs_begin b NewerCaller c])
  end.

(** [handleLokiScroll].  The global build's handler is empty.  The module
    build reads [scrollTop], [scrollHeight], [clientHeight] of the container
    ([None] when the container ref is null). *)
Definition handleLokiScroll (b : Build) (geometry : option (Z * Z * Z))
    (now1 now2 : Z) (m : Machine) : Machine :=
  match b, geometry with
  | GlobalBuild, _ => m
  | ModuleBuild, None => m
  | ModuleBuild, Some (scrollTop, scrollHeight, clientHeight) =>
      let atBottom := bool_decide (scrollHeight - scrollTop - clientHeight < 100) in
      let m1 := mkMachine (set_lokiAutoScroll atBottom (store m)) (pending m) (effects m) in
      let m2 := if atBottom && negb (lokiLoadingNewer (store m1))
                then call_loadNewerLogs b now1 now2 m1 else m1 in
      if bool_decide (scrollTop < 50) && negb (lokiLoadingOlder (store m2))
         && lokiCanLoadOlder (store m2)
      then call_loadOlderLogs b m2 else m2
  end.

Inductive Event :=
| CallInit (now : Z)
| CallLoadOlder
| CallLoadNewer (now1 now2 : Z)
| CallClear
| CallToggleServiceFilter (svc : string)
| CallToggleAutoScroll
| CallHandleScroll (geometry : option (Z * Z * Z)) (now1 now2 : Z)
| CallStartPolling
| CallStopPolling
| TimerTick (now1 now2 : Z)
| ApiSettles (i : nat) (r : ApiResult)
| Resumes (i : nat).

(** The continuation of the loader that awaited [fetchLokiLogs]. *)
Definition caller_resume (b : Build) (caller : Caller) (count : nat) (s : Store)
  : Store * list Effect :=
  match caller with
  | InitCaller => initLokiLogs_resume s
  | OlderCaller => loadOlderLogs_resume b count s
  | NewerCaller => let '(s', effs, _) := loadNewerLogs_resume count s in (s', effs)
  end.

Definition step (b : Build) (e : Event) (m : Machine) : Machine :=
  match e with
  | CallInit now => call_initLokiLogs b now m
  | CallLoadOlder => call_loadOlderLogs b m
  | CallLoadNewer now1 now2 => call_loadNewerLogs b now1 now2 m
  | CallClear => mkMachine (clearLokiLogs (store m)) (pending m) (effects m)
  | CallToggleServiceFilter svc =>
      mkMachine (toggleServiceFilter svc (store m)) (pending m) (effects m)
  | CallToggleAutoScroll =>
      let '(s, effs) := toggleLokiAutoScroll (store m) in
      mkMachine s (pending m) (effects m ++ effs)
  | CallHandleScroll geometry now1 now2 => handleLokiScroll b geometry now1 now2 m
  | CallStartPolling => mkMachine (startLokiPolling (store m)) (pending m) (effects m)
  | CallStopPolling => mkMachine (stopLokiPolling (store m)) (pending m) (effects m)
  | TimerTick now1 now2 =>
      if lokiPollTimer (store m) then call_loadNewerLogs b now1 now2 m else m
  | ApiSettles i r =>
      match pending m !! i with
      | Some (AwaitingApi caller c) =>
          let '(s, count, effs) := fetchLokiLogs_resume (prepend c) r (store m) in
          mkMachine s (<[i := AwaitingFetch caller count]> (pending m))
            (effects m ++ effs)
      | _ => m
      end
  | Resumes i =>
      match pending m !! i with
      | Some (AwaitingFetch caller count) =>
          let '(s, effs) := caller_resume b caller count (store m) in
          mkMachine s (delete i (pending m)) (effects m ++ effs)
      | _ => m
      end
  end.

(** Events are run in order, first to last. *)
Definition run (b : Build) (es : list Event) (m : Machine) : Machine :=
  foldl (λ m e, step b e m) m es.

(** ** Sample data *)

Definition entry (t : Z) (line : string) : LogEntry :=
  mkLogEntry t "server" line "".

Definition populatedStore : Store :=
  set_lokiLatestMs 1699999000000
    (set_lokiEarliestMs 1699998000000
       (set_lokiLogs [entry 1699998000000 "a"; entry 1699999000000 "b"] initialStore)).

(** ** Vocabulary of the properties *)

(** The order the comparator [a.timestamp - b.timestamp] induces. *)
Definition ts_le (a b : LogEntry) : Prop := timestamp a ≤ timestamp b.

(** Non-decreasing by timestamp, position by position. *)
Definition nondecreasing (l : list LogEntry) : Prop :=
  ∀ i j a b, (i ≤ j)%nat → l !! i = Some a → l !! j = Some b →
             timestamp a ≤ timestamp b.

(** The entries of a batch whose key the window does not hold yet
    (lines 62-63). *)
Definition uniqueNew (newLogs : list LogEntry) (s : Store) : list LogEntry :=
  filter (λ l, key l ∉ (list_to_set (key <$> lokiLogs s) : gset string)) newLogs.

(** The window a merge that adds something leaves. *)
Definition merged (newLogs : list LogEntry) (prepend : bool) (s : Store) : Store :=
  updateBounds
    (set_lokiLogs
       (sort_by_timestamp
          (if prepend then uniqueNew newLogs s ++ lokiLogs s
           else lokiLogs s ++ uniqueNew newLogs s)) s).

(** No bar occurs in the string. *)
Fixpoint bar_free (s : string) : Prop :=
  match s with
  | EmptyString => True
  | String c s' => c ≠ "|"%char ∧ bar_free s'
  end.

(** A sequence of merges, each with its own batch and prepend flag. *)
Definition mergeAll (ops : list (list LogEntry * bool)) (s : Store) : Store :=
  foldl (λ s op, (mergeLogs op.1 op.2 s).1) s ops.

(** The four fields of the window are the same in two states. *)
Definition same_window (s s' : Store) : Prop :=
  lokiLogs s' = lokiLogs s
  ∧ lokiEarliestMs s' = lokiEarliestMs s
  ∧ lokiLatestMs s' = lokiLatestMs s
  ∧ lokiCanLoadOlder s' = lokiCanLoadOlder s.

(** The loader a suspended frame belongs to. *)
Definition task_caller (t : Task) : Caller :=
  match t with AwaitingApi c _ => c | AwaitingFetch c _ => c end.

(** How many loaders of one kind are suspended. *)
Definition count_tasks (c : Caller) (ts : list Task) : nat :=
  length (filter (λ t, task_caller t = c) ts).

Definition in_flight (c : Caller) (m : Machine) : nat :=
  count_tasks c (pending m).

(** How many queries a loader of one kind has sent. *)
Definition fetch_caller (e : Effect) : option Caller :=
  match e with ApiFetch c _ _ _ _ => Some c | _ => None end.

Definition fetches_by (c : Caller) (effs : list Effect) : nat :=
  length (filter (λ e, fetch_caller e = Some c) effs).

(** [CallInit] and [CallClear] are the events that reset the window. *)
Definition is_reset (e : Event) : bool :=
  match e with CallInit _ | CallClear => true | _ => false end.

(** The filter is never empty and never lists a service twice. *)
Definition filter_ok (l : list string) : Prop := l ≠ [] ∧ NoDup l.

(** An in-flight flag read as a number of frames. *)
Definition flag_count (flag : bool) : nat := if flag then 1%nat else 0%nat.

(** Only [loadOlderLogs] asks for a prepending merge. *)
Definition task_ok (t : Task) : Prop :=
  match t with
  | AwaitingApi c call => prepend call = bool_decide (c = OlderCaller)
  | AwaitingFetch _ _ => True
  end.

(** What every reachable state of the event loop satisfies. *)
Record invariant (m : Machine) : Prop := mkInvariant {
  inv_older : in_flight OlderCaller m = flag_count (lokiLoadingOlder (store m));
  inv_newer : in_flight NewerCaller m = flag_count (lokiLoadingNewer (store m));
  inv_tasks : Forall task_ok (pending m);
  inv_filter : filter_ok (lokiServiceFilter (store m));
  inv_sorted : nondecreasing (lokiLogs (store m))
}.

(** The window is loaded once, then [loadOlderLogs] is called. *)
Definition olderInFlight : list Event :=
  [CallInit 1700000000000;
   ApiSettles 0 (Fulfilled (Some (Some [entry 1699999000000 "b"])));
   Resumes 0;
   CallLoadOlder].

(** The window is loaded, and a query of [loadOlderLogs] has returned an
    empty list. *)
Definition olderExhausted : list Event :=
  olderInFlight ++ [ApiSettles 0 (Fulfilled (Some (Some []))); Resumes 0].

(** ** The rest of the composable and its collaborators *)

(** [String.prototype.split] on a one-character separator: the pieces
    between the separators, an empty string giving one empty piece. *)
Fixpoint split_on (sep : ascii) (s : string) : list string :=
  match s with
  | EmptyString => [EmptyString]
  | String c s' =>
      if decide (c = sep) then EmptyString :: split_on sep s'
      else match split_on sep s' with
           | [] => [String c EmptyString]
           | w :: ws => String c w :: ws
           end
  end.

(** [time_str?.split(' ')[1] || '']. *)
Definition timeOfDay (time_str : string) : string :=
  default ""%string (split_on " " time_str !! 1%nat).

(** The computed [lokiTimeRange]. *)
Definition lokiTimeRange (s : Store) : string :=
  if decide (length (lokiLogs s) = 0%nat) then ""%string
  else
    match head (lokiLogs s), last (lokiLogs s) with
    | Some first, Some final =>
        (timeOfDay (time_str first) +:+ " ~ " +:+ timeOfDay (time_str final))%string
    | _, _ => ""%string
    end.

(** [refreshLokiLogs] run alone: [loadNewerLogs] to its end, then the
    toast. *)
Definition refreshLokiLogs_seq (b : Build) (now1 now2 : Z) (r : ApiResult) (s : Store)
  : Store * list Effect :=
  let '(s', effs, _) := loadNewerLogs_seq b now1 now2 r s in
  (s', effs ++ [Toast "日志已刷新" "success"]).

(** What [fetch] and [response.json()] give [request] in api.js: [fetch]
    rejects, or the body is not JSON (or is [null]), or the body is an object
    of which [request] reads [code] ([Some 0] when it is the number 0, [Some]
    of another number, [None] for anything else) and [message] ([None] when
    missing), and the callers read [data]. *)
Inductive HttpOutcome :=
| FetchRejects (error_message : string)
| JsonRejects (error_message : string)
| JsonBody (code : option Z) (body_message : option string)
           (data : option (option (list LogEntry))).

(** The [catch] of [request]: one message is replaced, the others are
    thrown on. *)
Definition rethrow (error_message : string) : ApiResult :=
  if decide (error_message = "Failed to fetch"%string)
  then Rejected "无法连接到服务器"
  else Rejected error_message.

(** [request] (and [apiRequest] of the global build). *)
Definition request (o : HttpOutcome) : ApiResult :=
  match o with
  | FetchRejects error_message => rethrow error_message
  | JsonRejects error_message => rethrow error_message
  | JsonBody code body_message data =>
      if decide (code = Some 0) then Fulfilled data
      else
        rethrow (match body_message with
                 | Some m => if decide (m = ""%string) then "请求失败"%string else m
                 | None => "请求失败"%string
                 end)
  end.

(** The [direction] literal in the URL. *)
Definition directionString (d : Direction) : string :=
  match d with forward => "forward" | backward => "backward" end.

(** The URL [api.fetchLokiLogs] hands to [request]. *)
Definition fetchLokiLogs_url (startMs endMs limit : Z) (d : Direction) : string :=
  ("/admin/loki/logs?start_ms=" +:+ pretty startMs +:+ "&end_ms=" +:+ pretty endMs
   +:+ "&limit=" +:+ pretty limit +:+ "&direction=" +:+ directionString d)%string.

(** useToast.js: the toasts on screen and the timers that will remove
    them. *)
Record ToastItem := mkToastItem {
  toast_id : Z;
  toast_message : string;
  toast_type : string
}.

Record ToastState := mkToastState {
  toasts : list ToastItem;
  toast_timers : list Z
}.

(** [showToast(message, type)] at clock reading [now]. *)
Definition showToast (now : Z) (message type : string) (t : ToastState) : ToastState :=
  mkToastState (toasts t ++ [mkToastItem now message type]) (toast_timers t ++ [now]).

(** The callback of the [i]-th pending timer runs. *)
Definition toastTimeout (i : nat) (t : ToastState) : ToastState :=
  match toast_timers t !! i with
  | Some id =>
      mkToastState (filter (λ x, toast_id x ≠ id) (toasts t)) (delete i (toast_timers t))
  | None => t
  end.

Inductive ToastEvent :=
| ShowToast (now : Z) (message type : string)
| ToastTimeout (i : nat).

Definition toast_step (e : ToastEvent) (t : ToastState) : ToastState :=
  match e with
  | ShowToast now message type => showToast now message type t
  | ToastTimeout i => toastTimeout i t
  end.

Definition toast_run (es : list ToastEvent) (t : ToastState) : ToastState :=
  foldl (λ t e, toast_step e t) t es.

(** The main entry (part_004): the active tab and the log composable. *)
Record App := mkApp {
  activeTab : string;
  loki : Machine
}.

Definition initialApp : App := mkApp "list" initialMachine.

(** [switchTab(tab)]. *)
Definition switchTab (b : Build) (tab : string) (now : Z) (a : App) : App :=
  if decide (tab = "logs"%string) then
    let m1 := if decide (length (lokiLogs (store (loki a))) = 0%nat)
              then call_initLokiLogs b now (loki a) else loki a in
    mkApp tab (mkMachine (startLokiPolling (store m1)) (pending m1) (effects m1))
  else
    mkApp tab (mkMachine (stopLokiPolling (store (loki a))) (pending (loki a))
                 (effects (loki a))).

(** What happens to the application: a tab is chosen, the component is
    unmounted, or something happens to the log composable. *)
Inductive AppEvent :=
| SwitchTab (tab : string) (now : Z)
| Unmounted
| Loki (e : Event).

Definition app_step (b : Build) (ev : AppEvent) (a : App) : App :=
  match ev with
  | SwitchTab tab now => switchTab b tab now a
  | Unmounted =>
      mkApp (activeTab a)
        (mkMachine (stopLokiPolling (store (loki a))) (pending (loki a))
           (effects (loki a)))
  | Loki e => mkApp (activeTab a) (step b e (loki a))
  end.

Definition app_run (b : Build) (evs : list AppEvent) (a : App) : App :=
  foldl (λ a ev, app_step b ev a) a evs.

(** The page calls [initLokiLogs] itself. *)
Definition calls_init (ev : AppEvent) : bool :=
  match ev with Loki (CallInit _) => true | _ => false end.

(** ** More vocabulary *)

(** The entries stamped [t], in the order they have in the list. *)
Definition stamped (t : Z) (l : list LogEntry) : list LogEntry :=
  filter (λ e, timestamp e = t) l.

(** While the window holds entries, the bounds are the timestamps of its
    two ends. *)
Definition bounds_track (s : Store) : Prop :=
  ∀ first final, head (lokiLogs s) = Some first → last (lokiLogs s) = Some final →
                 lokiEarliestMs s = timestamp first ∧ lokiLatestMs s = timestamp final.

(** The character does not occur in the string. *)
Fixpoint char_free (c : ascii) (s : string) : Prop :=
  match s with
  | EmptyString => True
  | String d s' => d ≠ c ∧ char_free c s'
  end.

(** The toasts among the effects. *)
Definition is_toast (e : Effect) : bool :=
  match e with Toast _ _ => true | _ => false end.

Definition toast_count (effs : list Effect) : nat :=
  length (filter (λ e, is_toast e = true) effs).





(** The event toggles a service that [lokiServices] does not list. *)
Definition toggles_unknown (e : Event) : bool :=
  match e with
  | CallToggleServiceFilter svc =>
      negb (bool_decide (svc ∈ lokiServices initialStore))
  | _ => false
  end.

(** What identifies an entry: its timestamp and its raw text. *)
Definition identity (e : LogEntry) : Z * string := (timestamp e, raw e).

(** Two states hold the same entries between the same bounds. *)
Definition same_entries (s s' : Store) : Prop :=
  lokiLogs s' = lokiLogs s
  ∧ lokiEarliestMs s' = lokiEarliestMs s
  ∧ lokiLatestMs s' = lokiLatestMs s.

(** Two states agree on the poller. *)
Definition same_polling (s s' : Store) : Prop :=
  lokiPolling s' = lokiPolling s ∧ lokiPollTimer s' = lokiPollTimer s.

(** Two states agree on the services and on the filter. *)
Definition same_services (s s' : Store) : Prop :=
  lokiServices s' = lokiServices s ∧ lokiServiceFilter s' = lokiServiceFilter s.

(** [CallStartPolling] and [CallStopPolling] are the events that switch the
    poller. *)
Definition is_poll_switch (e : Event) : bool :=
  match e with CallStartPolling | CallStopPolling => true | _ => false end.

(** An empty window has both bounds at 0. *)
Definition zero_when_empty (s : Store) : Prop :=
  lokiLogs s = [] → lokiEarliestMs s = 0 ∧ lokiLatestMs s = 0.

(** The logs tab is opened and answered with one entry, the window is
    cleared, the tab is left and opened again, and the query finds nothing. *)
Definition reopenedEmpty : list AppEvent :=
  [SwitchTab "logs" 1700000000000;
   Loki (ApiSettles 0 (Fulfilled (Some (Some [entry 1699999000000 "b"]))));
   Loki (Resumes 0);
   Loki CallClear;
   SwitchTab "list" 1700000050000;
   SwitchTab "logs" 1700000100000;
   Loki (ApiSettles 0 (Fulfilled (Some (Some []))));
   Loki (Resumes 0)].

(** A well-formed query of the build: its page size, the direction of the
    loader that sent it and, for [initLokiLogs] and [loadOlderLogs], a range
    of one hour. *)
Definition query_ok (b : Build) (e : Effect) : Prop :=
  match e with
  | ApiFetch InitCaller startMs endMs limit d =>
      limit = pageLimit b ∧ d = initDirection b ∧ endMs - startMs = 3600000
  | ApiFetch OlderCaller startMs endMs limit d =>
      limit = pageLimit b ∧ d = olderDirection b ∧ endMs - startMs = 3600000
  | ApiFetch NewerCaller startMs endMs limit d =>
      limit = pageLimit b ∧ d = forward
  | _ => True
  end.

(** ** The scenarios of the specification, run on the embedding *)

(** An initial load at 1700000000000 that finds two entries. *)
Example scenario_initial_load :
  initLokiLogs_seq ModuleBuild 1700000000000
    (Fulfilled (Some (Some [entry 1699998000000 "a"; entry 1699999000000 "b"])))
    initialStore
  = (populatedStore,
     [ApiFetch InitCaller 1699996400000 1700000000000 500 forward; ScrollToBottom]).
Proof. reflexivity. Qed.

(** [loadOlderLogs] on that window, answered with an empty list. *)
Example scenario_history_exhausted :
  loadOlderLogs_seq GlobalBuild (Fulfilled (Some (Some []))) populatedStore
  = (set_lokiCanLoadOlder false populatedStore,
     [ApiFetch OlderCaller 1699994399999 1699997999999 50 backward]).
Proof. reflexivity. Qed.

(** [loadNewerLogs] answered with one entry the window holds and one it
    does not: one entry is added and 1 is returned. *)
Example scenario_overlapping_batch :
  let out := loadNewerLogs_seq GlobalBuild 1700000005000 1700000005000
               (Fulfilled (Some (Some [entry 1699999000000 "b";
                                       entry 1699999500000 "c"])))
               populatedStore in
  lokiLogs out.1.1
  = [entry 1699998000000 "a"; entry 1699999000000 "b"; entry 1699999500000 "c"]
  ∧ lokiLatestMs out.1.1 = 1699999500000
  ∧ out.2 = Some 1%nat
  ∧ head out.1.2
    = Some (ApiFetch NewerCaller 1699999000001 1700000005000 50 forward).
Proof. vm_compute. done. Qed.

(** A second [loadNewerLogs] while the first is pending sends nothing. *)
Example scenario_second_call_pending :
  let m1 := run GlobalBuild [CallLoadNewer 1700000005000 1700000005000]
              (mkMachine populatedStore [] []) in
  let m2 := step GlobalBuild (CallLoadNewer 1700000006000 1700000006000) m1 in
  m2 = m1
  ∧ effects m1 = [ApiFetch NewerCaller 1699999000001 1700000005000 50 forward].
Proof. vm_compute. done. Qed.

(** ** Projections of the assignments *)

Lemma updateBounds_logs s : lokiLogs (updateBounds s) = lokiLogs s.
Proof. unfold updateBounds. by repeat case_match. Qed.

Lemma updateBounds_canLoadOlder s :
  lokiCanLoadOlder (updateBounds s) = lokiCanLoadOlder s.
Proof. unfold updateBounds. by repeat case_match. Qed.

Lemma updateBounds_filter s :
  lokiServiceFilter (updateBounds s) = lokiServiceFilter s.
Proof. unfold updateBounds. by repeat case_match. Qed.

Lemma updateBounds_flags s :
  lokiLoadingOlder (updateBounds s) = lokiLoadingOlder s
  ∧ lokiLoadingNewer (updateBounds s) = lokiLoadingNewer s.
Proof. unfold updateBounds. by repeat case_match. Qed.

(** ** The sort *)

Section sorting.

Lemma insert_by_timestamp_perm x l : insert_by_timestamp x l ≡ₚ x :: l.
Proof.
  induction l as [|y l IH]; simpl; [done|].
  case_decide; [done|]. rewrite IH. apply Permutation_swap.
Qed.

Lemma sort_by_timestamp_perm l : sort_by_timestamp l ≡ₚ l.
Proof.
  induction l as [|x l IH]; simpl; [done|].
  rewrite insert_by_timestamp_perm. by rewrite IH.
Qed.

Lemma insert_by_timestamp_sorted x l :
  StronglySorted ts_le l → StronglySorted ts_le (insert_by_timestamp x l).
Proof.
  induction 1 as [|y l Hl IH Hy]; simpl.
  - repeat constructor.
  - case_decide as Hxy.
    + constructor; [by constructor|].
      constructor; [unfold ts_le; lia|].
      eapply Forall_impl; [exact Hy|]. unfold ts_le. intros; lia.
    + constructor; [exact IH|].
      rewrite insert_by_timestamp_perm. constructor; [unfold ts_le; lia|done].
Qed.

Lemma sort_by_timestamp_sorted l : StronglySorted ts_le (sort_by_timestamp l).
Proof.
  induction l as [|x l IH]; simpl; [constructor|].
  by apply insert_by_timestamp_sorted.
Qed.

(** The sort is stable: entries of one timestamp keep their order. *)
Lemma insert_by_timestamp_stable t x l :
  StronglySorted ts_le l →
  filter (λ e, timestamp e = t) (insert_by_timestamp x l)
  = filter (λ e, timestamp e = t) (x :: l).
Proof.
  induction 1 as [|y l Hl IH Hy]; simpl; [done|].
  case_decide as Hxy; [done|].
  rewrite !filter_cons. rewrite IH. rewrite filter_cons.
  destruct (decide (timestamp y = t)) as [Hyt|Hyt];
    destruct (decide (timestamp x = t)) as [Hxt|Hxt]; try done.
  lia.
Qed.

Lemma sort_by_timestamp_stable t l :
  filter (λ e, timestamp e = t) (sort_by_timestamp l)
  = filter (λ e, timestamp e = t) l.
Proof.
  induction l as [|x l IH]; simpl; [done|].
  rewrite insert_by_timestamp_stable by apply sort_by_timestamp_sorted.
  rewrite !filter_cons. by rewrite IH.
Qed.

Lemma StronglySorted_nondecreasing l : StronglySorted ts_le l → nondecreasing l.
Proof.
  induction 1 as [|x l Hl IH Hx]; intros i j a b Hij Hi Hj.
  - by rewrite lookup_nil in Hi.
  - destruct i as [|i], j as [|j]; simpl in *; simplify_eq.
    + lia.
    + rewrite Forall_forall in Hx. apply Hx.
      eapply list_elem_of_lookup_2. exact Hj.
    + lia.
    + eapply IH; [|exact Hi|exact Hj]. lia.
Qed.

Lemma nondecreasing_nil : nondecreasing [].
Proof. intros i j a b _ Hi. by rewrite lookup_nil in Hi. Qed.

Lemma sort_by_timestamp_nondecreasing l : nondecreasing (sort_by_timestamp l).
Proof. apply StronglySorted_nondecreasing, sort_by_timestamp_sorted. Qed.

(** The two ends of a sorted array bound every entry of it. *)
Lemma sorted_head_least l first e :
  StronglySorted ts_le l → head l = Some first → e ∈ l →
  timestamp first ≤ timestamp e.
Proof.
  intros Hs Hh He. destruct l as [|x l]; simplify_eq/=.
  apply StronglySorted_inv in Hs as [_ Hx].
  apply elem_of_cons in He as [->|He]; [lia|].
  rewrite Forall_forall in Hx. by apply Hx.
Qed.

Lemma sorted_last_greatest l final e :
  StronglySorted ts_le l → last l = Some final → e ∈ l →
  timestamp e ≤ timestamp final.
Proof.
  intros Hs Hl He. apply StronglySorted_nondecreasing in Hs.
  apply list_elem_of_lookup in He as [i Hi].
  rewrite last_lookup in Hl.
  eapply (Hs i (pred (length l))); [|exact Hi|exact Hl].
  apply lookup_lt_Some in Hi. lia.
Qed.

End sorting.

(** ** The merge step: what it keeps and what it adds *)

Section merge.

Lemma uniqueNew_nil_iff newLogs s :
  uniqueNew newLogs s = [] ↔ ∀ l, l ∈ newLogs → key l ∈ key <$> lokiLogs s.
Proof.
  unfold uniqueNew. induction newLogs as [|x l IH].
  - split; [|done]. intros _ y Hy. by apply elem_of_nil in Hy.
  - rewrite filter_cons. case_decide as Hx.
    + split; [done|]. intros H. exfalso. apply Hx.
      apply elem_of_list_to_set, H. by left.
    + rewrite IH. split.
      * intros H y Hy. apply elem_of_cons in Hy as [->|Hy]; [|by apply H].
        by apply elem_of_list_to_set in Hx.
      * intros H y Hy. apply H. by right.
Qed.

Lemma uniqueNew_elem newLogs s l :
  l ∈ uniqueNew newLogs s ↔ l ∈ newLogs ∧ key l ∉ key <$> lokiLogs s.
Proof.
  unfold uniqueNew. rewrite list_elem_of_filter, elem_of_list_to_set. tauto.
Qed.

Lemma mergeLogs_count newLogs prepend s :
  (mergeLogs newLogs prepend s).2 = length (uniqueNew newLogs s).
Proof.
  unfold mergeLogs. fold (uniqueNew newLogs s).
  case_decide as Hn.
  - apply length_zero_iff_nil in Hn. by subst.
  - case_decide as Hu; [done|]. done.
Qed.

Lemma mergeLogs_nothing_new newLogs prepend s :
  uniqueNew newLogs s = [] →
  (mergeLogs newLogs prepend s).1
  = if decide (length newLogs = 0%nat)
    then (if prepend then set_lokiCanLoadOlder false s else s) else s.
Proof.
  intros Hu. unfold mergeLogs. fold (uniqueNew newLogs s). rewrite Hu.
  by repeat case_decide.
Qed.

Lemma mergeLogs_something_new newLogs prepend s :
  uniqueNew newLogs s ≠ [] →
  (mergeLogs newLogs prepend s).1 = merged newLogs prepend s.
Proof.
  intros Hu. unfold mergeLogs, merged. fold (uniqueNew newLogs s).
  case_decide as Hn.
  { apply length_zero_iff_nil in Hn. subst. done. }
  case_decide as Hl.
  { by apply length_zero_iff_nil in Hl. }
  by destruct prepend.
Qed.

Lemma merged_logs newLogs prepend s :
  lokiLogs (merged newLogs prepend s)
  = sort_by_timestamp
      (if prepend then uniqueNew newLogs s ++ lokiLogs s
       else lokiLogs s ++ uniqueNew newLogs s).
Proof. unfold merged. by rewrite updateBounds_logs. Qed.

Lemma merged_perm newLogs prepend s :
  lokiLogs (merged newLogs prepend s) ≡ₚ lokiLogs s ++ uniqueNew newLogs s.
Proof.
  rewrite merged_logs, sort_by_timestamp_perm.
  destruct prepend; [apply Permutation_app_comm|done].
Qed.

(** A merge never drops an entry, and what it adds comes from the batch. *)
Lemma mergeLogs_perm newLogs prepend s :
  lokiLogs (mergeLogs newLogs prepend s).1 ≡ₚ lokiLogs s ++ uniqueNew newLogs s.
Proof.
  destruct (decide (uniqueNew newLogs s = [])) as [Hu|Hu].
  - rewrite mergeLogs_nothing_new by done. rewrite Hu, app_nil_r.
    by repeat case_match.
  - rewrite mergeLogs_something_new by done. apply merged_perm.
Qed.

Lemma mergeLogs_logs_cases newLogs prepend s :
  lokiLogs (mergeLogs newLogs prepend s).1 = lokiLogs s
  ∨ StronglySorted ts_le (lokiLogs (mergeLogs newLogs prepend s).1).
Proof.
  destruct (decide (uniqueNew newLogs s = [])) as [Hu|Hu].
  - left. rewrite mergeLogs_nothing_new by done. by repeat case_match.
  - right. rewrite mergeLogs_something_new, merged_logs by done.
    apply sort_by_timestamp_sorted.
Qed.

Lemma mergeLogs_nondecreasing newLogs prepend s :
  nondecreasing (lokiLogs s) →
  nondecreasing (lokiLogs (mergeLogs newLogs prepend s).1).
Proof.
  intros Hs. destruct (mergeLogs_logs_cases newLogs prepend s) as [->|H]; [done|].
  by apply StronglySorted_nondecreasing.
Qed.

(** The bounds after a merge that adds something. *)
Lemma merged_bounds newLogs prepend s :
  uniqueNew newLogs s ≠ [] →
  ∃ first final,
    head (lokiLogs (merged newLogs prepend s)) = Some first
    ∧ last (lokiLogs (merged newLogs prepend s)) = Some final
    ∧ lokiEarliestMs (merged newLogs prepend s) = timestamp first
    ∧ lokiLatestMs (merged newLogs prepend s) = timestamp final.
Proof.
  intros Hu. unfold merged.
  set (l := sort_by_timestamp _).
  assert (Hl : l ≠ []).
  { intros Hnil. apply Hu.
    assert (Hp : l ≡ₚ lokiLogs s ++ uniqueNew newLogs s).
    { unfold l. rewrite sort_by_timestamp_perm.
      destruct prepend; [apply Permutation_app_comm|done]. }
    rewrite Hnil in Hp. symmetry in Hp. apply Permutation_nil_r in Hp.
    by apply app_eq_nil in Hp as [_ ?]. }
  destruct (head_is_Some l) as [_ Hh]. destruct (Hh Hl) as [first Hfirst].
  destruct (last_is_Some l) as [_ Hla]. destruct (Hla Hl) as [final Hfinal].
  exists first, final. unfold updateBounds. simpl.
  rewrite Hfirst, Hfinal. done.
Qed.

End merge.

(** ** The identity key *)

Section keys.

Lemma pretty_N_char_no_bar x : pretty_N_char x ≠ "|"%char.
Proof. unfold pretty_N_char. by repeat case_match. Qed.

Lemma pretty_N_go_bar_free x s : bar_free s → bar_free (pretty_N_go x s).
Proof.
  revert s. induction (N.lt_wf_0 x) as [x _ IH]; intros s Hs.
  destruct (decide (x = 0%N)) as [->|Hx].
  - by rewrite pretty_N_go_0.
  - rewrite pretty_N_go_step by lia. apply IH.
    + apply N.div_lt; lia.
    + split; [apply pretty_N_char_no_bar|done].
Qed.

Lemma pretty_N_bar_free (x : N) : bar_free (pretty x).
Proof.
  unfold pretty, pretty_N. case_decide; [by split|].
  by apply pretty_N_go_bar_free.
Qed.

Lemma pretty_Z_bar_free (z : Z) : bar_free (pretty z).
Proof.
  destruct z as [|p|p]; unfold pretty, pretty_Z.
  - by split.
  - apply pretty_N_bar_free.
  - split; [done|apply pretty_N_bar_free].
Qed.

(** A bar-free prefix is determined by the string it starts. *)
Lemma bar_split s1 s2 r1 r2 :
  bar_free s1 → bar_free s2 →
  s1 +:+ "|" +:+ r1 = s2 +:+ "|" +:+ r2 → s1 = s2 ∧ r1 = r2.
Proof.
  revert s2. induction s1 as [|c s1 IH]; intros [|d s2] H1 H2 Heq;
    simpl in *; simplify_eq.
  - done.
  - by destruct H2.
  - by destruct H1.
  - destruct H1 as [_ H1], H2 as [_ H2].
    destruct (IH s2 H1 H2) as [-> ->]; done.
Qed.

(** Two entries have the same key exactly when they agree on timestamp and
    raw text. *)
Lemma key_eq_iff (a b : LogEntry) :
  key a = key b ↔ timestamp a = timestamp b ∧ raw a = raw b.
Proof.
  unfold key. split.
  - intros H. apply bar_split in H as [Ht Hr]; try apply pretty_Z_bar_free.
    split; [|done]. by apply (inj pretty).
  - by intros [-> ->].
Qed.

End keys.

(** ** Properties of the merge step *)

(** A sequence of merges keeps a sorted window sorted. *)
Lemma mergeAll_nondecreasing (ops : list (list LogEntry * bool)) (s : Store) :
  nondecreasing (lokiLogs s) → nondecreasing (lokiLogs (mergeAll ops s)).
Proof.
  revert s. induction ops as [|[newLogs prepend] ops IH]; intros s Hs; [done|].
  simpl. apply IH. by apply mergeLogs_nondecreasing.
Qed.

(** Starting from the empty window, every sequence of merges leaves a
    sorted window. *)
Lemma merges_from_empty_sorted ops s :
  lokiLogs s = [] → nondecreasing (lokiLogs (mergeAll ops s)).
Proof.
  intros Hs. induction ops as [|op ops IH] using rev_ind.
  - simpl. rewrite Hs. apply nondecreasing_nil.
  - unfold mergeAll. rewrite foldl_app. simpl. by apply mergeLogs_nondecreasing.
Qed.

(** C6. Merging a batch a second time adds nothing: the second merge returns
    0 and leaves the entry sequence and both bounds as the first merge left
    them.  Presence is decided on the key, which identifies the pair of
    timestamp and raw text ([key_eq_iff]). *)
Theorem mergeLogs_twice_adds_nothing
    (newLogs : list LogEntry) (prepend1 prepend2 : bool) (s : Store) :
  let s1 := (mergeLogs newLogs prepend1 s).1 in
  let r2 := mergeLogs newLogs prepend2 s1 in
  r2.2 = 0%nat
  ∧ lokiLogs r2.1 = lokiLogs s1
  ∧ lokiEarliestMs r2.1 = lokiEarliestMs s1
  ∧ lokiLatestMs r2.1 = lokiLatestMs s1.
Proof.
  intros s1 r2.
  assert (Hu : uniqueNew newLogs s1 = []).
  { apply uniqueNew_nil_iff. intros l Hl.
    assert (Hp : key <$> lokiLogs s1 ≡ₚ key <$> (lokiLogs s ++ uniqueNew newLogs s)).
    { unfold s1. by rewrite mergeLogs_perm. }
    rewrite Hp, fmap_app, elem_of_app.
    destruct (decide (key l ∈ key <$> lokiLogs s)) as [Hin|Hout]; [by left|right].
    apply list_elem_of_fmap_2. by apply uniqueNew_elem. }
  unfold r2. rewrite mergeLogs_count, Hu.
  rewrite mergeLogs_nothing_new by done.
  split; [done|]. by repeat case_match.
Qed.

(** C7. After a merge that adds at least one entry, [lokiEarliestMs] is the
    least timestamp in the window and [lokiLatestMs] the greatest: both are
    timestamps of entries present, and every entry lies between them. *)
Theorem mergeLogs_bounds_are_min_max
    (newLogs : list LogEntry) (prepend : bool) (s : Store) :
  (0 < (mergeLogs newLogs prepend s).2)%nat →
  let s' := (mergeLogs newLogs prepend s).1 in
  (∀ e, e ∈ lokiLogs s' → lokiEarliestMs s' ≤ timestamp e ≤ lokiLatestMs s')
  ∧ (∃ e, e ∈ lokiLogs s' ∧ timestamp e = lokiEarliestMs s')
  ∧ (∃ e, e ∈ lokiLogs s' ∧ timestamp e = lokiLatestMs s').
Proof.
  intros Hn s'. rewrite mergeLogs_count in Hn.
  assert (Hu : uniqueNew newLogs s ≠ []).
  { intros Hu. rewrite Hu in Hn. simpl in Hn. lia. }
  unfold s'. rewrite mergeLogs_something_new by done.
  destruct (merged_bounds newLogs prepend s Hu)
    as (first & final & Hfirst & Hfinal & -> & ->).
  assert (Hs : StronglySorted ts_le (lokiLogs (merged newLogs prepend s))).
  { rewrite merged_logs. apply sort_by_timestamp_sorted. }
  split; [|split].
  - intros e He. split.
    + by eapply sorted_head_least.
    + by eapply sorted_last_greatest.
  - exists first. split; [|done]. by apply head_Some_elem_of.
  - exists final. split; [|done]. by apply last_Some_elem_of.
Qed.

Lemma mergeLogs_bounds_are_min_max_witness :
  let s' := (mergeLogs [entry 30 "c"; entry 10 "a"] false
               (set_lokiLogs [entry 20 "b"] initialStore)).1 in
  (∀ e, e ∈ lokiLogs s' → lokiEarliestMs s' ≤ timestamp e ≤ lokiLatestMs s')
  ∧ (∃ e, e ∈ lokiLogs s' ∧ timestamp e = lokiEarliestMs s')
  ∧ (∃ e, e ∈ lokiLogs s' ∧ timestamp e = lokiLatestMs s').
Proof.
  apply (mergeLogs_bounds_are_min_max [entry 30 "c"; entry 10 "a"] false
           (set_lokiLogs [entry 20 "b"] initialStore)).
  vm_compute. lia.
Defined.

(** ** Properties of the loaders run alone *)




(** When none of its three guards holds, [loadOlderLogs] sends the query for
    the hour that ends one millisecond before [lokiEarliestMs], with the
    build's direction, and asks for a prepending merge. *)
Lemma loadOlderLogs_begin_sends (b : Build) (s : Store) :
  lokiLoadingOlder s = false → lokiCanLoadOlder s = true → lokiLogs s ≠ [] →
  loadOlderLogs_begin b s
  = Some (set_lokiLoadingOlder true s,
          mkFetchCall (lokiEarliestMs s - 1 - 3600000) (lokiEarliestMs s - 1)
            (olderDirection b) true).
Proof.
  intros H1 H2 H3. unfold loadOlderLogs_begin. rewrite H1, H2. simpl.
  rewrite bool_decide_eq_false_2.
  - done.
  - intros Hl. by apply length_zero_iff_nil in Hl.
Qed.

(** In the global build the query of [loadOlderLogs] scans backward and its
    result is merged with prepend. *)
Lemma loadOlderLogs_global_query (r : ApiResult) (s : Store) :
  lokiLoadingOlder s = false → lokiCanLoadOlder s = true → lokiLogs s ≠ [] →
  let endMs := lokiEarliestMs s - 1 in
  let s1 := set_lokiLoadingOlder true s in
  let merge := fetchLokiLogs_resume true r s1 in
  loadOlderLogs_begin GlobalBuild s
  = Some (s1, mkFetchCall (endMs - 3600000) endMs backward true)
  ∧ loadOlderLogs_seq GlobalBuild r s
    = ((loadOlderLogs_resume GlobalBuild merge.1.2 merge.1.1).1,
       ApiFetch OlderCaller (endMs - 3600000) endMs 50 backward
         :: merge.2 ++ (loadOlderLogs_resume GlobalBuild merge.1.2 merge.1.1).2).
Proof.
  intros H1 H2 H3 endMs s1 merge.
  pose proof (loadOlderLogs_begin_sends GlobalBuild s H1 H2 H3) as Hb.
  split; [exact Hb|].
  unfold loadOlderLogs_seq. rewrite Hb. simpl. fold s1. fold merge.
  by destruct merge as [[s2 count] e2].
Qed.

(** C3. In the module build [loadOlderLogs] sends its query with direction
    [forward], not [backward]: on the window holding entries at
    1699998000000 and 1699999000000 the query is
    [1699994399999, 1699997999999], page 500, forward. *)
Theorem loadOlderLogs_module_scans_forward :
  loadOlderLogs_begin ModuleBuild populatedStore
  = Some (set_lokiLoadingOlder true populatedStore,
          mkFetchCall 1699994399999 1699997999999 forward true)
  ∧ (loadOlderLogs_seq ModuleBuild (Fulfilled (Some (Some []))) populatedStore).2
    = [ApiFetch OlderCaller 1699994399999 1699997999999 500 forward;
       KeepScrollPosition].
Proof. split; reflexivity. Qed.

(** [initLokiLogs] does not touch the bounds before it sends its query;
    [clearLokiLogs] sets both to 0. *)
Lemma initLokiLogs_begin_fields (b : Build) (now : Z) (s : Store) :
  let s1 := (initLokiLogs_begin b now s).1 in
  lokiLogs s1 = [] ∧ lokiCanLoadOlder s1 = true ∧ lokiLoading s1 = true
  ∧ lokiEarliestMs s1 = lokiEarliestMs s ∧ lokiLatestMs s1 = lokiLatestMs s
  ∧ (initLokiLogs_begin b now s).2
    = mkFetchCall (now - 3600000) now (initDirection b) false.
Proof. done. Qed.

Lemma clearLokiLogs_fields (s : Store) :
  lokiLogs (clearLokiLogs s) = [] ∧ lokiEarliestMs (clearLokiLogs s) = 0
  ∧ lokiLatestMs (clearLokiLogs s) = 0 ∧ lokiCanLoadOlder (clearLokiLogs s) = true.
Proof. done. Qed.

(** C4. [initLokiLogs] on the window holding entries at 1699998000000 and
    1699999000000, answered with an empty list, leaves the window empty and
    [lokiCanLoadOlder] true, but the bounds are still 1699998000000 and
    1699999000000, not 0. *)
Theorem initLokiLogs_keeps_old_bounds (b : Build) :
  let s' := (initLokiLogs_seq b 1700000000000 (Fulfilled (Some (Some [])))
               populatedStore).1 in
  lokiLogs s' = [] ∧ lokiCanLoadOlder s' = true
  ∧ lokiEarliestMs s' = 1699998000000 ∧ lokiLatestMs s' = 1699999000000.
Proof. by destruct b. Qed.

(** The count a merge step returns is the number of entries by which the
    window grew. *)
Lemma fetchLokiLogs_resume_count (prepend : bool) (r : ApiResult) (s : Store) :
  length (lokiLogs (fetchLokiLogs_resume prepend r s).1.1)
  = (length (lokiLogs s) + (fetchLokiLogs_resume prepend r s).1.2)%nat.
Proof.
  destruct r as [message|[[newLogs|]|]]; simpl; try lia.
  destruct (mergeLogs newLogs prepend s) as [s' n] eqn:Hm. simpl.
  replace s' with (mergeLogs newLogs prepend s).1 by by rewrite Hm.
  replace n with (mergeLogs newLogs prepend s).2 by by rewrite Hm.
  rewrite mergeLogs_perm, length_app, mergeLogs_count. done.
Qed.

(** On a window whose newest bound is 0 when it is empty and positive when
    it is not, the test on [lokiLatestMs] is the test on emptiness. *)
Lemma loadNewerLogs_start_consistent_window (now1 now2 : Z) (s : Store) :
  lokiLoadingNewer s = false →
  (lokiLogs s = [] → lokiLatestMs s = 0) →
  (lokiLogs s ≠ [] → lokiLatestMs s > 0) →
  ∃ s1 c, loadNewerLogs_begin now1 now2 s = Some (s1, c)
          ∧ startMs c = (if decide (lokiLogs s = []) then now1 - 3600000
                         else lokiLatestMs s + 1)
          ∧ endMs c = now2 ∧ direction c = forward ∧ prepend c = false.
Proof.
  intros Hg Hempty Hfull. unfold loadNewerLogs_begin. rewrite Hg.
  eexists _, _. split; [done|]. simpl. repeat split.
  destruct (decide (lokiLogs s = [])) as [He|He].
  - rewrite decide_False; [done|]. rewrite (Hempty He). lia.
  - rewrite decide_True; [done|]. by apply Hfull.
Qed.

(** C8. On an empty window [loadNewerLogs] does not always ask for the last
    hour.  After two calls of [initLokiLogs], the first answered with one
    entry at 1699999000000 and the second with none, the window is empty and
    [loadNewerLogs] is not in flight, yet its query starts at 1699999000001,
    the [lokiLatestMs] of the entry that is gone plus one, and not one hour
    before now: [initLokiLogs] empties the window and leaves the bounds as
    they were, and line 137 tests the bound, not the window.  Where the
    bounds follow the window the test on the bound is the test on emptiness
    ([loadNewerLogs_start_consistent_window]). *)
Lemma loadNewerLogs_empty_window_old_start :
  let s0 := (initLokiLogs_seq GlobalBuild 1700000000000
               (Fulfilled (Some (Some [entry 1699999000000 "b"]))) initialStore).1 in
  let s := (initLokiLogs_seq GlobalBuild 1700000100000
              (Fulfilled (Some (Some []))) s0).1 in
  lokiLogs s = [] ∧ lokiLoadingNewer s = false
  ∧ loadNewerLogs_begin 1700000200000 1700000200000 s
    = Some (set_lokiLoadingNewer true s,
            mkFetchCall 1699999000001 1700000200000 forward false)
  ∧ 1699999000001 ≠ 1700000200000 - 3600000.
Proof. vm_compute. repeat split; done. Qed.

(** What [loadNewerLogs] does as written (lines 133-151).  When it is not in
    flight it sends a forward query that ends at the clock reading taken for
    [endMs] and starts at [lokiLatestMs + 1] if [lokiLatestMs] is positive,
    and one hour before the clock reading taken for [startMs] otherwise; the
    result is merged without prepend, and the value returned is the count of
    that merge, the number of entries by which the window grew. *)
Lemma loadNewerLogs_query_and_count
    (b : Build) (now1 now2 : Z) (r : ApiResult) (s : Store) :
  lokiLoadingNewer s = false →
  let start := if decide (lokiLatestMs s > 0) then lokiLatestMs s + 1
               else now1 - 3600000 in
  let s1 := set_lokiLoadingNewer true s in
  let merge := fetchLokiLogs_resume false r s1 in
  let out := loadNewerLogs_seq b now1 now2 r s in
  loadNewerLogs_begin now1 now2 s = Some (s1, mkFetchCall start now2 forward false)
  ∧ head out.1.2 = Some (ApiFetch NewerCaller start now2 (pageLimit b) forward)
  ∧ out.1.1 = set_lokiLoadingNewer false merge.1.1
  ∧ out.2 = Some merge.1.2
  ∧ length (lokiLogs out.1.1) = (length (lokiLogs s) + merge.1.2)%nat.
Proof.
  intros Hg start s1 merge out.
  assert (Hb : loadNewerLogs_begin now1 now2 s
               = Some (s1, mkFetchCall start now2 forward false)).
  { unfold loadNewerLogs_begin. by rewrite Hg. }
  split; [exact Hb|].
  unfold out, loadNewerLogs_seq. rewrite Hb. simpl. fold merge.
  pose proof (fetchLokiLogs_resume_count false r s1) as Hc. fold merge in Hc.
  destruct merge as [[s2 count] e2]. simpl in *. done.
Qed.

Lemma loadNewerLogs_query_and_count_witness :
  (loadNewerLogs_seq GlobalBuild 1700000000000 1700000000000
     (Fulfilled (Some (Some [entry 1699999000000 "b"; entry 1699999500000 "c"])))
     populatedStore).2 = Some 1%nat.
Proof.
  destruct (loadNewerLogs_query_and_count GlobalBuild 1700000000000 1700000000000
              (Fulfilled (Some (Some [entry 1699999000000 "b"; entry 1699999500000 "c"])))
              populatedStore) as (_ & _ & _ & Hret & _).
  - reflexivity.
  - rewrite Hret. vm_compute. reflexivity.
Defined.

(** ** Invariants of the event loop *)

Section counting.

Lemma count_tasks_app c ts1 ts2 :
  count_tasks c (ts1 ++ ts2) = (count_tasks c ts1 + count_tasks c ts2)%nat.
Proof. unfold count_tasks. by rewrite filter_app, length_app. Qed.

Lemma count_tasks_one c t :
  count_tasks c [t] = if decide (task_caller t = c) then 1%nat else 0%nat.
Proof. unfold count_tasks. rewrite filter_cons. by case_decide. Qed.

Lemma count_tasks_cons c t ts :
  count_tasks c (t :: ts) = (count_tasks c [t] + count_tasks c ts)%nat.
Proof. apply (count_tasks_app c [t] ts). Qed.

Lemma count_tasks_split c ts i t :
  ts !! i = Some t →
  count_tasks c ts
  = (count_tasks c (take i ts) + count_tasks c [t] + count_tasks c (drop (S i) ts))%nat.
Proof.
  intros Hi. rewrite <- (take_drop_middle ts i t Hi) at 1.
  rewrite count_tasks_app, count_tasks_cons. lia.
Qed.

Lemma count_tasks_insert c ts i t t' :
  ts !! i = Some t → task_caller t' = task_caller t →
  count_tasks c (<[i := t']> ts) = count_tasks c ts.
Proof.
  intros Hi Hc. rewrite (count_tasks_split c ts i t Hi).
  rewrite insert_take_drop by (by eapply lookup_lt_Some).
  rewrite count_tasks_app, count_tasks_cons, !count_tasks_one, Hc. lia.
Qed.

Lemma count_tasks_delete c ts i t :
  ts !! i = Some t →
  count_tasks c ts = (count_tasks c (delete i ts) + count_tasks c [t])%nat.
Proof.
  intros Hi. rewrite (count_tasks_split c ts i t Hi).
  rewrite delete_take_drop, count_tasks_app. lia.
Qed.

Lemma count_tasks_pos c ts :
  (0 < count_tasks c ts)%nat ↔ ∃ i t, ts !! i = Some t ∧ task_caller t = c.
Proof.
  unfold count_tasks. split.
  - intros Hpos. destruct (filter _ ts) as [|t l] eqn:Hf; [simpl in Hpos; lia|].
    assert (Ht : t ∈ filter (λ t, task_caller t = c) ts) by (rewrite Hf; by left).
    apply list_elem_of_filter in Ht as [Hc Ht].
    apply list_elem_of_lookup in Ht as [i Hi]. by exists i, t.
  - intros (i & t & Hi & Hc).
    assert (Ht : t ∈ filter (λ t, task_caller t = c) ts).
    { apply list_elem_of_filter. split; [done|]. by eapply list_elem_of_lookup_2. }
    destruct (filter _ ts); [by apply elem_of_nil in Ht|simpl; lia].
Qed.

Lemma fetches_by_app c e1 e2 :
  fetches_by c (e1 ++ e2) = (fetches_by c e1 + fetches_by c e2)%nat.
Proof. unfold fetches_by. by rewrite filter_app, length_app. Qed.

End counting.

(** What the pieces leave alone. *)
Section frames.

Lemma mergeLogs_frame newLogs prepend s :
  let s' := (mergeLogs newLogs prepend s).1 in
  lokiLoadingOlder s' = lokiLoadingOlder s
  ∧ lokiLoadingNewer s' = lokiLoadingNewer s
  ∧ lokiServiceFilter s' = lokiServiceFilter s
  ∧ lokiPollTimer s' = lokiPollTimer s.
Proof.
  simpl. destruct (decide (uniqueNew newLogs s = [])) as [Hu|Hu].
  - rewrite mergeLogs_nothing_new by done. by repeat case_match.
  - rewrite mergeLogs_something_new by done. unfold merged, updateBounds.
    by repeat case_match.
Qed.

Lemma fetchLokiLogs_resume_frame prepend r s :
  let s' := (fetchLokiLogs_resume prepend r s).1.1 in
  lokiLoadingOlder s' = lokiLoadingOlder s
  ∧ lokiLoadingNewer s' = lokiLoadingNewer s
  ∧ lokiServiceFilter s' = lokiServiceFilter s
  ∧ lokiPollTimer s' = lokiPollTimer s.
Proof.
  destruct r as [message|[[newLogs|]|]]; simpl; try done.
  pose proof (mergeLogs_frame newLogs prepend s) as H.
  by destruct (mergeLogs newLogs prepend s).
Qed.

Lemma fetchLokiLogs_resume_no_fetch prepend r s c :
  fetches_by c (fetchLokiLogs_resume prepend r s).2 = 0%nat.
Proof.
  destruct r as [message|[[newLogs|]|]]; simpl; try done.
  by destruct (mergeLogs newLogs prepend s).
Qed.

(** The merge step turns [lokiCanLoadOlder] off only for a prepending
    merge of an explicitly empty list, and never turns it on. *)
Lemma fetchLokiLogs_resume_canLoadOlder prepend r s :
  let s' := (fetchLokiLogs_resume prepend r s).1.1 in
  lokiCanLoadOlder s' = lokiCanLoadOlder s
  ∨ (prepend = true ∧ r = Fulfilled (Some (Some [])) ∧ lokiCanLoadOlder s' = false).
Proof.
  destruct r as [message|[[newLogs|]|]]; simpl; try by left.
  destruct newLogs as [|x l].
  - destruct prepend; [right|left]; done.
  - left. pose proof (mergeLogs_count (x :: l) prepend s) as Hc.
    destruct (decide (uniqueNew (x :: l) s = [])) as [Hu|Hu].
    + pose proof (mergeLogs_nothing_new (x :: l) prepend s Hu) as Hm.
      destruct (mergeLogs (x :: l) prepend s). simpl in *. by subst.
    + pose proof (mergeLogs_something_new (x :: l) prepend s Hu) as Hm.
      destruct (mergeLogs (x :: l) prepend s). simpl in *. subst.
      unfold merged. by rewrite updateBounds_canLoadOlder.
Qed.

Lemma fetchLokiLogs_resume_sorted prepend r s :
  nondecreasing (lokiLogs s) →
  nondecreasing (lokiLogs (fetchLokiLogs_resume prepend r s).1.1).
Proof.
  intros Hs. destruct r as [message|[[newLogs|]|]]; simpl; try done.
  pose proof (mergeLogs_nondecreasing newLogs prepend s Hs).
  by destruct (mergeLogs newLogs prepend s).
Qed.

End frames.

(** ** The service filter *)

Section service_filter.

Lemma indexOf_found (svc : string) (l : list string) :
  indexOf svc l > -1 →
  l !! Z.to_nat (indexOf svc l) = Some svc
  ∧ ∀ j y, l !! j = Some y → (j < Z.to_nat (indexOf svc l))%nat → y ≠ svc.
Proof.
  unfold indexOf. destruct (list_find _ l) as [[i x]|] eqn:Hf; [|lia].
  intros _. apply list_find_Some in Hf as (Hi & -> & Hmin).
  rewrite Nat2Z.id. done.
Qed.

Lemma indexOf_missing (svc : string) (l : list string) :
  ¬ indexOf svc l > -1 → svc ∉ l.
Proof.
  unfold indexOf. destruct (list_find _ l) as [[i x]|] eqn:Hf; [lia|].
  intros _ Hin. apply list_find_None in Hf. rewrite Forall_forall in Hf.
  by apply (Hf svc).
Qed.

Lemma indexOf_elem (svc : string) (l : list string) :
  indexOf svc l > -1 ↔ svc ∈ l.
Proof.
  split.
  - intros H. apply indexOf_found in H as [H _]. by eapply list_elem_of_lookup_2.
  - intros Hin. destruct (decide (indexOf svc l > -1)) as [|Hn]; [done|].
    by apply indexOf_missing in Hn.
Qed.

(** What one toggle does to the filter. *)
Lemma toggleServiceFilter_cases (svc : string) (s : Store) :
  let l := lokiServiceFilter s in
  let l' := lokiServiceFilter (toggleServiceFilter svc s) in
  (svc ∈ l → (1 < length l)%nat →
     l' = delete (Z.to_nat (indexOf svc l)) l ∧ length l' = (length l - 1)%nat)
  ∧ (svc ∈ l → (length l ≤ 1)%nat → toggleServiceFilter svc s = s)
  ∧ (svc ∉ l → l' = l ++ [svc]).
Proof.
  intros l l'. unfold l', toggleServiceFilter. fold l. split; [|split].
  - intros Hin Hlen. apply indexOf_elem in Hin.
    rewrite decide_True by done. rewrite decide_True by done. simpl.
    split; [done|]. apply length_delete.
    apply indexOf_found in Hin as [Hi _]. by eexists.
  - intros Hin Hlen. apply indexOf_elem in Hin.
    rewrite decide_True by done. rewrite decide_False by lia. done.
  - intros Hout. rewrite decide_False; [done|].
    intros H. by apply indexOf_elem in H.
Qed.

Lemma toggleServiceFilter_ok (svc : string) (s : Store) :
  filter_ok (lokiServiceFilter s) →
  filter_ok (lokiServiceFilter (toggleServiceFilter svc s)).
Proof.
  intros [Hne Hnd].
  destruct (toggleServiceFilter_cases svc s) as (Hdel & Hsame & Hadd).
  destruct (decide (svc ∈ lokiServiceFilter s)) as [Hin|Hout].
  - destruct (decide (1 < length (lokiServiceFilter s))%nat) as [Hlen|Hlen].
    + destruct (Hdel Hin Hlen) as [Heq Hl]. split.
      * intros Hnil. rewrite Hnil in Hl. simpl in Hl. lia.
      * rewrite Heq. eapply sublist_NoDup; [exact Hnd|apply sublist_delete].
    + rewrite Hsame by (done || lia). done.
  - rewrite (Hadd Hout). split.
    + intros Hnil. by apply app_eq_nil in Hnil as [_ ?].
    + apply NoDup_app. split; [done|]. split; [|apply NoDup_singleton].
      intros x Hx Hx'. apply list_elem_of_singleton in Hx'. by subst.
Qed.

Lemma toggleServiceFilter_frame (svc : string) (s : Store) :
  let s' := toggleServiceFilter svc s in
  lokiLogs s' = lokiLogs s
  ∧ lokiLoadingOlder s' = lokiLoadingOlder s
  ∧ lokiLoadingNewer s' = lokiLoadingNewer s
  ∧ lokiCanLoadOlder s' = lokiCanLoadOlder s.
Proof. simpl. unfold toggleServiceFilter. by repeat case_decide. Qed.

End service_filter.

(** ** The invariant of the event loop *)

(** The count after one more task is queued. *)
Ltac count_snoc :=
  rewrite count_tasks_app, count_tasks_one; simpl;
  repeat case_decide; simplify_eq; lia.

Section invariant_steps.

Implicit Types (b : Build) (m : Machine).

Lemma invariant_initial : invariant initialMachine.
Proof.
  split.
  - done.
  - done.
  - constructor.
  - split; [done|]. by apply (bool_decide_unpack _).
  - apply nondecreasing_nil.
Qed.

(** A step that changes the store but none of the fields the invariant
    reads besides the filter and the entries. *)
Lemma invariant_store m (s : Store) (effs : list Effect) :
  invariant m →
  lokiLoadingOlder s = lokiLoadingOlder (store m) →
  lokiLoadingNewer s = lokiLoadingNewer (store m) →
  filter_ok (lokiServiceFilter s) →
  nondecreasing (lokiLogs s) →
  invariant (mkMachine s (pending m) effs).
Proof.
  intros [Ho Hn Ht Hf Hs] H1 H2 H3 H4. split; simpl; try done.
  - unfold in_flight in *. simpl. by rewrite H1.
  - unfold in_flight in *. simpl. by rewrite H2.
Qed.

Lemma call_initLokiLogs_invariant b now m :
  invariant m → invariant (call_initLokiLogs b now m).
Proof.
  intros [Ho Hn Ht Hf Hs]. unfold call_initLokiLogs, in_flight in *. simpl.
  split; unfold in_flight; simpl.
  - count_snoc.
  - count_snoc.
  - apply Forall_app. split; [done|]. by repeat constructor.
  - done.
  - apply nondecreasing_nil.
Qed.

Lemma call_loadOlderLogs_invariant b m :
  invariant m → invariant (call_loadOlderLogs b m).
Proof.
  intros Hinv. unfold call_loadOlderLogs, loadOlderLogs_begin.
  destruct (lokiLoadingOlder (store m)) eqn:Hflag; simpl; [done|].
  destruct (negb _ || _); simpl; [done|].
  destruct Hinv as [Ho Hn Ht Hf Hs]. unfold in_flight in *.
  rewrite Hflag in Ho. simpl in Ho.
  split; unfold in_flight; simpl.
  - count_snoc.
  - count_snoc.
  - apply Forall_app. split; [done|]. by repeat constructor.
  - done.
  - done.
Qed.

Lemma call_loadNewerLogs_invariant b now1 now2 m :
  invariant m → invariant (call_loadNewerLogs b now1 now2 m).
Proof.
  intros Hinv. unfold call_loadNewerLogs, loadNewerLogs_begin.
  destruct (lokiLoadingNewer (store m)) eqn:Hflag; simpl; [done|].
  destruct Hinv as [Ho Hn Ht Hf Hs]. unfold in_flight in *.
  rewrite Hflag in Hn. simpl in Hn.
  split; unfold in_flight; simpl.
  - count_snoc.
  - count_snoc.
  - apply Forall_app. split; [done|]. by repeat constructor.
  - done.
  - done.
Qed.

Lemma handleLokiScroll_invariant b geometry now1 now2 m :
  invariant m → invariant (handleLokiScroll b geometry now1 now2 m).
Proof.
  intros Hinv. unfold handleLokiScroll.
  destruct b; [done|]. destruct geometry as [[[scrollTop scrollHeight] clientHeight]|];
    [|done].
  set (m1 := mkMachine _ _ _).
  assert (H1 : invariant m1).
  { destruct Hinv. by apply invariant_store. }
  set (m2 := if _ && negb (lokiLoadingNewer (store m1)) then _ else m1).
  assert (H2 : invariant m2).
  { unfold m2. case_match; [|done]. by apply call_loadNewerLogs_invariant. }
  case_match; [|done]. by apply call_loadOlderLogs_invariant.
Qed.

Lemma settle_invariant b i r m :
  invariant m → invariant (step b (ApiSettles i r) m).
Proof.
  intros Hinv. simpl.
  destruct (pending m !! i) as [[caller call|caller count]|] eqn:Hi; try done.
  pose proof (fetchLokiLogs_resume_frame (prepend call) r (store m)) as (F1 & F2 & F3 & _).
  pose proof (fetchLokiLogs_resume_sorted (prepend call) r (store m)) as F4.
  destruct (fetchLokiLogs_resume (prepend call) r (store m)) as [[s count] effs].
  simpl in *. destruct Hinv as [Ho Hn Ht Hf Hs]. unfold in_flight in *.
  split; unfold in_flight; simpl.
  - rewrite F1. by erewrite count_tasks_insert.
  - rewrite F2. by erewrite count_tasks_insert.
  - by apply Forall_insert.
  - by rewrite F3.
  - by apply F4.
Qed.

Lemma flag_count_le_1 (flag : bool) : (flag_count flag ≤ 1)%nat.
Proof. destruct flag; simpl; lia. Qed.

Lemma resume_invariant b i m :
  invariant m → invariant (step b (Resumes i) m).
Proof.
  intros Hinv. simpl.
  destruct (pending m !! i) as [[caller call|caller count]|] eqn:Hi; try done.
  destruct Hinv as [Ho Hn Ht Hf Hs]. unfold in_flight in *.
  pose proof (count_tasks_delete OlderCaller _ _ _ Hi) as Do.
  pose proof (count_tasks_delete NewerCaller _ _ _ Hi) as Dn.
  rewrite count_tasks_one in Do. rewrite count_tasks_one in Dn.
  pose proof (flag_count_le_1 (lokiLoadingOlder (store m))) as Bo.
  pose proof (flag_count_le_1 (lokiLoadingNewer (store m))) as Bn.
  destruct caller; simpl in *; repeat case_decide; simplify_eq;
    (split; unfold in_flight; simpl;
     [lia | lia | by apply Forall_delete | done | done]).
Qed.

Lemma step_invariant b e m : invariant m → invariant (step b e m).
Proof.
  intros Hinv. destruct e.
  - by apply call_initLokiLogs_invariant.
  - by apply call_loadOlderLogs_invariant.
  - by apply call_loadNewerLogs_invariant.
  - simpl. destruct Hinv.
    apply invariant_store; first [done | apply nondecreasing_nil].
  - simpl. pose proof (toggleServiceFilter_frame svc (store m)) as (F1 & F2 & F3 & _).
    destruct Hinv. apply invariant_store; try done.
    + by apply toggleServiceFilter_ok.
    + simpl in F1. by rewrite F1.
  - simpl. destruct Hinv. by apply invariant_store.
  - by apply handleLokiScroll_invariant.
  - simpl. destruct Hinv. apply invariant_store; try done;
      unfold startLokiPolling; by case_match.
  - simpl. destruct Hinv. apply invariant_store; try done;
      unfold stopLokiPolling; by case_match.
  - simpl. case_match; [|done]. by apply call_loadNewerLogs_invariant.
  - by apply settle_invariant.
  - by apply resume_invariant.
Qed.

Lemma run_app b es1 es2 m : run b (es1 ++ es2) m = run b es2 (run b es1 m).
Proof. unfold run. apply foldl_app. Qed.

Lemma run_invariant b es m : invariant m → invariant (run b es m).
Proof.
  revert m. induction es as [|e es IH]; intros m Hinv; [done|].
  simpl. apply IH. by apply step_invariant.
Qed.

Lemma reachable_invariant b es : invariant (run b es initialMachine).
Proof. apply run_invariant, invariant_initial. Qed.

End invariant_steps.

(** C5. Whatever batches are merged, and whichever of them are prepended or
    appended, the window is sorted by timestamp afterwards: entries at
    positions [i ≤ j] have timestamps in that order.  This holds of every
    sequence of merges applied to a sorted window, in particular to the
    window as created or as cleared, and of every state the event loop can
    reach, whatever the loaders and their continuations interleave. *)
Theorem merges_keep_window_sorted
    (b : Build) (es : list Event) (ops : list (list LogEntry * bool)) (s : Store) :
  (nondecreasing (lokiLogs s) → nondecreasing (lokiLogs (mergeAll ops s)))
  ∧ nondecreasing (lokiLogs (mergeAll ops initialStore))
  ∧ nondecreasing (lokiLogs (mergeAll ops (clearLokiLogs s)))
  ∧ nondecreasing (lokiLogs (store (run b es initialMachine))).
Proof.
  split; [apply mergeAll_nondecreasing|].
  split; [by apply merges_from_empty_sorted|].
  split; [by apply merges_from_empty_sorted|].
  by destruct (reachable_invariant b es).
Qed.

Lemma merges_keep_window_sorted_witness :
  nondecreasing (lokiLogs (set_lokiLogs [entry 20 "b"] initialStore))
  ∧ nondecreasing
      (lokiLogs
         (mergeAll [([entry 30 "c"; entry 10 "a"], false); ([entry 5 "z"], true)]
            (set_lokiLogs [entry 20 "b"] initialStore))).
Proof.
  assert (H : nondecreasing (lokiLogs (set_lokiLogs [entry 20 "b"] initialStore))).
  { apply StronglySorted_nondecreasing. repeat constructor. }
  split; [exact H|].
  destruct (merges_keep_window_sorted GlobalBuild []
              [([entry 30 "c"; entry 10 "a"], false); ([entry 5 "z"], true)]
              (set_lokiLogs [entry 20 "b"] initialStore)) as [Hkeep _].
  exact (Hkeep H).
Defined.

(** ** Calls and [lokiCanLoadOlder] *)

Section can_load_older.

Implicit Types (b : Build) (m : Machine).

Lemma call_loadNewerLogs_older b now1 now2 m :
  let m' := call_loadNewerLogs b now1 now2 m in
  lokiCanLoadOlder (store m') = lokiCanLoadOlder (store m)
  ∧ lokiLoadingOlder (store m') = lokiLoadingOlder (store m)
  ∧ fetches_by OlderCaller (effects m') = fetches_by OlderCaller (effects m)
  ∧ in_flight OlderCaller m' = in_flight OlderCaller m.
Proof.
  simpl. unfold call_loadNewerLogs, loadNewerLogs_begin.
  destruct (lokiLoadingNewer (store m)); simpl; [done|].
  rewrite fetches_by_app. unfold in_flight. simpl. rewrite count_tasks_app.
  repeat split; done.
Qed.

Lemma call_loadOlderLogs_guarded b m :
  lokiLoadingOlder (store m) = true ∨ lokiCanLoadOlder (store m) = false
  ∨ lokiLogs (store m) = [] →
  call_loadOlderLogs b m = m.
Proof.
  intros H. unfold call_loadOlderLogs, loadOlderLogs_begin.
  destruct H as [->| [->| ->]]; simpl; try done.
  - by rewrite orb_true_r.
  - by rewrite orb_true_r.
Qed.

Lemma call_loadOlderLogs_canLoadOlder b m :
  lokiCanLoadOlder (store (call_loadOlderLogs b m)) = lokiCanLoadOlder (store m).
Proof.
  unfold call_loadOlderLogs, loadOlderLogs_begin.
  by destruct (_ || _ || _).
Qed.

Lemma handleLokiScroll_canLoadOlder b geometry now1 now2 m :
  lokiCanLoadOlder (store (handleLokiScroll b geometry now1 now2 m))
  = lokiCanLoadOlder (store m).
Proof.
  unfold handleLokiScroll. destruct b; [done|].
  destruct geometry as [[[scrollTop scrollHeight] clientHeight]|]; [|done].
  set (m1 := mkMachine _ _ _).
  set (m2 := if _ && negb (lokiLoadingNewer (store m1)) then _ else m1).
  assert (H2 : lokiCanLoadOlder (store m2) = lokiCanLoadOlder (store m)).
  { unfold m2. case_match; [|done].
    by destruct (call_loadNewerLogs_older ModuleBuild now1 now2 m1) as [-> _]. }
  case_match; [|done]. by rewrite call_loadOlderLogs_canLoadOlder.
Qed.

Lemma handleLokiScroll_no_older_fetch b geometry now1 now2 m :
  lokiCanLoadOlder (store m) = false →
  fetches_by OlderCaller (effects (handleLokiScroll b geometry now1 now2 m))
  = fetches_by OlderCaller (effects m).
Proof.
  intros Hoff. unfold handleLokiScroll. destruct b; [done|].
  destruct geometry as [[[scrollTop scrollHeight] clientHeight]|]; [|done].
  set (m1 := mkMachine _ _ _).
  set (m2 := if _ && negb (lokiLoadingNewer (store m1)) then _ else m1).
  assert (H2 : lokiCanLoadOlder (store m2) = false
               ∧ fetches_by OlderCaller (effects m2)
                 = fetches_by OlderCaller (effects m)).
  { unfold m2. case_match; [|done].
    by destruct (call_loadNewerLogs_older ModuleBuild now1 now2 m1)
      as (-> & _ & -> & _). }
  destruct H2 as [H2 H3]. rewrite H2, andb_false_r. done.
Qed.

(** Every event that is not a reset leaves [lokiCanLoadOlder] off, and
    sends no query for [loadOlderLogs] while it is off. *)
Lemma step_canLoadOlder_off b e m :
  lokiCanLoadOlder (store m) = false → is_reset e = false →
  lokiCanLoadOlder (store (step b e m)) = false
  ∧ fetches_by OlderCaller (effects (step b e m))
    = fetches_by OlderCaller (effects m).
Proof.
  intros Hoff Hreset. destruct e; simpl; try done.
  - rewrite call_loadOlderLogs_guarded by auto. done.
  - by destruct (call_loadNewerLogs_older b now1 now2 m) as (-> & _ & -> & _).
  - split; [|done].
    by destruct (toggleServiceFilter_frame svc (store m)) as (_ & _ & _ & ->).
  - split; [done|]. rewrite fetches_by_app.
    unfold fetches_by at 2. destruct (negb _); simpl; lia.
  - split.
    + by rewrite handleLokiScroll_canLoadOlder.
    + by apply handleLokiScroll_no_older_fetch.
  - split; [|done]. unfold startLokiPolling. by case_match.
  - split; [|done]. unfold stopLokiPolling. by case_match.
  - case_match; [|done].
    by destruct (call_loadNewerLogs_older b now1 now2 m) as (-> & _ & -> & _).
  - destruct (pending m !! i) as [[caller call|caller count]|]; try done.
    pose proof (fetchLokiLogs_resume_canLoadOlder (prepend call) r (store m)) as Hc.
    pose proof (fetchLokiLogs_resume_no_fetch (prepend call) r (store m) OlderCaller) as Hf.
    destruct (fetchLokiLogs_resume (prepend call) r (store m)) as [[s count] effs].
    simpl in *. rewrite fetches_by_app, Hf. split; [|lia].
    destruct Hc as [->|(_ & _ & ->)]; done.
  - destruct (pending m !! i) as [[caller call|caller count]|]; try done.
    destruct caller; simpl; rewrite fetches_by_app.
    + split; [done|]. unfold fetches_by at 2. simpl. lia.
    + split; [by case_decide|]. unfold fetches_by at 2.
      destruct b; simpl; lia.
    + split; [done|]. unfold fetches_by at 2.
      destruct (_ && _); simpl; lia.
Qed.

Lemma run_canLoadOlder_off b es m :
  lokiCanLoadOlder (store m) = false → forallb (λ e, negb (is_reset e)) es = true →
  lokiCanLoadOlder (store (run b es m)) = false
  ∧ fetches_by OlderCaller (effects (run b es m))
    = fetches_by OlderCaller (effects m).
Proof.
  revert m. induction es as [|e es IH]; intros m Hoff Hes; [done|].
  simpl in Hes. apply andb_true_iff in Hes as [He Hes].
  apply negb_true_iff in He.
  destruct (step_canLoadOlder_off b e m Hoff He) as [H1 H2].
  simpl. destruct (IH (step b e m) H1 Hes) as [H3 H4].
  split; [done|]. by rewrite H4.
Qed.

(** A reset turns [lokiCanLoadOlder] on; nothing else does. *)
Lemma step_canLoadOlder_on b e m :
  (is_reset e = true → lokiCanLoadOlder (store (step b e m)) = true)
  ∧ (lokiCanLoadOlder (store m) = false →
     lokiCanLoadOlder (store (step b e m)) = true → is_reset e = true).
Proof.
  split.
  - by destruct e.
  - intros Hoff Hon. destruct (is_reset e) eqn:He; [done|].
    destruct (step_canLoadOlder_off b e m Hoff He) as [H _]. congruence.
Qed.

(** The steps that turn [lokiCanLoadOlder] off. *)
Lemma step_canLoadOlder_turned_off b e m :
  Forall task_ok (pending m) →
  lokiCanLoadOlder (store m) = true →
  lokiCanLoadOlder (store (step b e m)) = false →
  (∃ i call, e = ApiSettles i (Fulfilled (Some (Some [])))
             ∧ pending m !! i = Some (AwaitingApi OlderCaller call))
  ∨ (∃ i, e = Resumes i ∧ pending m !! i = Some (AwaitingFetch OlderCaller 0)).
Proof.
  intros Htasks Hon Hoff. destruct e; simpl in Hoff; try congruence.
  - rewrite call_loadOlderLogs_canLoadOlder in Hoff. congruence.
  - destruct (call_loadNewerLogs_older b now1 now2 m) as [H _]. congruence.
  - destruct (toggleServiceFilter_frame svc (store m)) as (_ & _ & _ & H).
    congruence.
  - rewrite handleLokiScroll_canLoadOlder in Hoff. congruence.
  - unfold startLokiPolling in Hoff. destruct (lokiPollTimer _); simpl in *; congruence.
  - unfold stopLokiPolling in Hoff. destruct (lokiPollTimer _); simpl in *; congruence.
  - destruct (lokiPollTimer _); [|congruence].
    destruct (call_loadNewerLogs_older b now1 now2 m) as [H _]. congruence.
  - destruct (pending m !! i) as [[caller call|caller count]|] eqn:Hi;
      try congruence.
    pose proof (fetchLokiLogs_resume_canLoadOlder (prepend call) r (store m)) as Hc.
    destruct (fetchLokiLogs_resume (prepend call) r (store m)) as [[s count] effs].
    simpl in *. destruct Hc as [Hc|(Hp & -> & _)]; [congruence|].
    left. exists i, call. split; [done|].
    rewrite Forall_lookup in Htasks. specialize (Htasks i _ Hi). simpl in Htasks.
    rewrite Hp in Htasks. symmetry in Htasks.
    apply bool_decide_eq_true in Htasks. by subst.
  - destruct (pending m !! i) as [[caller call|caller count]|] eqn:Hi;
      try congruence.
    destruct caller; simpl in Hoff; try congruence.
    case_decide; simpl in Hoff; [|congruence].
    right. exists i. by subst.
Qed.

End can_load_older.

(** ** Properties of the event loop *)

Section calls.

Implicit Types (b : Build) (m : Machine).

Lemma call_loadOlderLogs_sends b m :
  lokiLoadingOlder (store m) = false → lokiCanLoadOlder (store m) = true →
  lokiLogs (store m) ≠ [] →
  let c := mkFetchCall (lokiEarliestMs (store m) - 1 - 3600000)
             (lokiEarliestMs (store m) - 1) (olderDirection b) true in
  call_loadOlderLogs b m
  = mkMachine (set_lokiLoadingOlder true (store m))
      (pending m ++ [AwaitingApi OlderCaller c])
      (effects m ++ [fetchLokiLogs_begin b OlderCaller c]).
Proof.
  intros H1 H2 H3 c. unfold call_loadOlderLogs.
  by rewrite (loadOlderLogs_begin_sends b (store m) H1 H2 H3).
Qed.

Lemma call_loadNewerLogs_sends b now1 now2 m :
  lokiLoadingNewer (store m) = false →
  let start := if decide (lokiLatestMs (store m) > 0)
               then lokiLatestMs (store m) + 1 else now1 - 3600000 in
  let c := mkFetchCall start now2 forward false in
  call_loadNewerLogs b now1 now2 m
  = mkMachine (set_lokiLoadingNewer true (store m))
      (pending m ++ [AwaitingApi NewerCaller c])
      (effects m ++ [fetchLokiLogs_begin b NewerCaller c]).
Proof.
  intros H1 start c. unfold call_loadNewerLogs, loadNewerLogs_begin.
  by rewrite H1.
Qed.

Lemma call_loadNewerLogs_guarded b now1 now2 m :
  lokiLoadingNewer (store m) = true → call_loadNewerLogs b now1 now2 m = m.
Proof.
  intros H. unfold call_loadNewerLogs, loadNewerLogs_begin. by rewrite H.
Qed.

Lemma fetches_by_one c e :
  fetches_by c [e] = if decide (fetch_caller e = Some c) then 1%nat else 0%nat.
Proof. unfold fetches_by. rewrite filter_cons. by case_decide. Qed.

Lemma flag_count_pos flag : (0 < flag_count flag)%nat → flag = true.
Proof. destruct flag; simpl; [done|lia]. Qed.

End calls.

(** A run in which a query of [loadOlderLogs] and a query of
    [loadNewerLogs] are outstanding at the same time. *)
Example both_directions_outstanding :
  let m := run GlobalBuild
             [CallInit 1700000000000;
              ApiSettles 0 (Fulfilled (Some (Some [entry 1699999000000 "b"])));
              Resumes 0;
              CallLoadOlder;
              CallLoadNewer 1700000001000 1700000001000]
             initialMachine in
  pending m
  = [AwaitingApi OlderCaller (mkFetchCall 1699995399999 1699998999999 backward true);
     AwaitingApi NewerCaller (mkFetchCall 1699999000001 1700000001000 forward false)]
  ∧ lokiLoadingOlder (store m) = true ∧ lokiLoadingNewer (store m) = true.
Proof. vm_compute. done. Qed.

(** C9. In every state the event loop can reach, at most one
    [loadOlderLogs] and at most one [loadNewerLogs] is suspended, and one is
    suspended exactly when its flag is on.  While it is, a further call of
    the same loader changes nothing and sends nothing, so two calls in a row
    send exactly one query.  The guard of one loader does not read the flag
    of the other: a call of one that passes its own guard is suspended next
    to whatever the other has in flight. *)
Theorem in_flight_guards (b : Build) (es : list Event) (now1 now2 now3 now4 : Z) :
  let m := run b es initialMachine in
  in_flight OlderCaller m = flag_count (lokiLoadingOlder (store m))
  ∧ in_flight NewerCaller m = flag_count (lokiLoadingNewer (store m))
  ∧ (in_flight OlderCaller m ≤ 1)%nat
  ∧ (in_flight NewerCaller m ≤ 1)%nat
  ∧ ((0 < in_flight OlderCaller m)%nat → step b CallLoadOlder m = m)
  ∧ ((0 < in_flight NewerCaller m)%nat → step b (CallLoadNewer now1 now2) m = m)
  ∧ (lokiLoadingOlder (store m) = false → lokiCanLoadOlder (store m) = true →
     lokiLogs (store m) ≠ [] →
     let m1 := step b CallLoadOlder m in
     fetches_by OlderCaller (effects (run b [CallLoadOlder; CallLoadOlder] m))
     = S (fetches_by OlderCaller (effects m))
     ∧ in_flight OlderCaller m1 = 1%nat
     ∧ in_flight NewerCaller m1 = in_flight NewerCaller m)
  ∧ (lokiLoadingNewer (store m) = false →
     let m1 := step b (CallLoadNewer now1 now2) m in
     fetches_by NewerCaller
       (effects (run b [CallLoadNewer now1 now2; CallLoadNewer now3 now4] m))
     = S (fetches_by NewerCaller (effects m))
     ∧ in_flight NewerCaller m1 = 1%nat
     ∧ in_flight OlderCaller m1 = in_flight OlderCaller m).
Proof.
  intros m. destruct (reachable_invariant b es) as [Ho Hn _ _ _]. fold m in Ho, Hn.
  split; [done|]. split; [done|].
  split; [rewrite Ho; apply flag_count_le_1|].
  split; [rewrite Hn; apply flag_count_le_1|].
  split; [|split; [|split]].
  - intros Hpos. rewrite Ho in Hpos. apply flag_count_pos in Hpos.
    simpl. apply call_loadOlderLogs_guarded. by left.
  - intros Hpos. rewrite Hn in Hpos. apply flag_count_pos in Hpos.
    simpl. by apply call_loadNewerLogs_guarded.
  - intros H1 H2 H3 m1. unfold m1. simpl.
    rewrite (call_loadOlderLogs_sends b m H1 H2 H3).
    rewrite call_loadOlderLogs_guarded by (by left). simpl.
    rewrite fetches_by_app, fetches_by_one. simpl.
    unfold in_flight. simpl. rewrite !count_tasks_app, !count_tasks_one. simpl.
    unfold in_flight in Ho. rewrite Ho, H1. simpl.
    repeat split; lia.
  - intros H1 m1. unfold m1. simpl.
    rewrite (call_loadNewerLogs_sends b now1 now2 m H1).
    rewrite call_loadNewerLogs_guarded by done. simpl.
    rewrite fetches_by_app, fetches_by_one. simpl.
    unfold in_flight. simpl. rewrite !count_tasks_app, !count_tasks_one. simpl.
    unfold in_flight in Hn. rewrite Hn, H1. simpl.
    repeat split; lia.
Qed.

Lemma in_flight_guards_witness :
  (0 < in_flight OlderCaller (run GlobalBuild olderInFlight initialMachine))%nat
  ∧ step GlobalBuild CallLoadOlder (run GlobalBuild olderInFlight initialMachine)
    = run GlobalBuild olderInFlight initialMachine.
Proof.
  split.
  - vm_compute. lia.
  - destruct (in_flight_guards GlobalBuild olderInFlight 0 0 0 0)
      as (_ & _ & _ & _ & H & _).
    apply H. vm_compute. lia.
Defined.

(** [lokiCanLoadOlder] goes from true to false although no query returned
    an empty list: the query of [loadOlderLogs] is rejected, or returns only an
    entry the window holds, or returns a body without [data]. *)
Lemma canLoadOlder_off_without_empty_result :
  lokiCanLoadOlder populatedStore = true
  ∧ lokiCanLoadOlder
      (loadOlderLogs_seq GlobalBuild (Rejected "down") populatedStore).1 = false
  ∧ lokiCanLoadOlder
      (loadOlderLogs_seq GlobalBuild
         (Fulfilled (Some (Some [entry 1699998000000 "a"]))) populatedStore).1 = false
  ∧ lokiCanLoadOlder
      (loadOlderLogs_seq GlobalBuild (Fulfilled None) populatedStore).1 = false
  ∧ (let m := run GlobalBuild (olderInFlight ++ [ApiSettles 0 (Rejected "down")])
                initialMachine in
     lokiCanLoadOlder (store m) = true
     ∧ lokiCanLoadOlder (store (step GlobalBuild (Resumes 0) m)) = false).
Proof. vm_compute. repeat split; done. Qed.

(** C2, amended. In every state the event loop can reach,
    [lokiCanLoadOlder] goes from true to false only inside [loadOlderLogs]:
    when its query returns an explicitly empty list, or when the loader
    resumes with a count of 0.  Once it is false, a call of [loadOlderLogs]
    changes nothing and sends nothing, and through any events other than
    [initLokiLogs] and [clearLokiLogs] it stays false and no query is sent for
    [loadOlderLogs]; those two calls, and nothing else, set it to true. *)
Theorem canLoadOlder_transitions (b : Build) (es es' : list Event) (e : Event) :
  let m := run b es initialMachine in
  (lokiCanLoadOlder (store m) = true →
   lokiCanLoadOlder (store (step b e m)) = false →
   (∃ i call, e = ApiSettles i (Fulfilled (Some (Some [])))
              ∧ pending m !! i = Some (AwaitingApi OlderCaller call))
   ∨ (∃ i, e = Resumes i ∧ pending m !! i = Some (AwaitingFetch OlderCaller 0)))
  ∧ (lokiCanLoadOlder (store m) = false → step b CallLoadOlder m = m)
  ∧ (lokiCanLoadOlder (store m) = false →
     forallb (λ e, negb (is_reset e)) es' = true →
     lokiCanLoadOlder (store (run b es' m)) = false
     ∧ fetches_by OlderCaller (effects (run b es' m))
       = fetches_by OlderCaller (effects m))
  ∧ (lokiCanLoadOlder (store m) = false →
     lokiCanLoadOlder (store (step b e m)) = true → is_reset e = true)
  ∧ (is_reset e = true → lokiCanLoadOlder (store (step b e m)) = true).
Proof.
  intros m. destruct (reachable_invariant b es) as [_ _ Ht _ _]. fold m in Ht.
  split; [|split; [|split; [|split]]].
  - by apply step_canLoadOlder_turned_off.
  - intros Hoff. simpl. apply call_loadOlderLogs_guarded. auto.
  - by apply run_canLoadOlder_off.
  - by apply step_canLoadOlder_on.
  - by apply step_canLoadOlder_on.
Qed.

Lemma canLoadOlder_transitions_witness :
  lokiCanLoadOlder (store (run GlobalBuild olderExhausted initialMachine)) = false
  ∧ step GlobalBuild CallLoadOlder (run GlobalBuild olderExhausted initialMachine)
    = run GlobalBuild olderExhausted initialMachine
  ∧ fetches_by OlderCaller
      (effects (run GlobalBuild
                  [CallLoadOlder; CallLoadNewer 1700000002000 1700000002000;
                   CallLoadOlder]
                  (run GlobalBuild olderExhausted initialMachine)))
    = fetches_by OlderCaller
        (effects (run GlobalBuild olderExhausted initialMachine)).
Proof.
  destruct (canLoadOlder_transitions GlobalBuild olderExhausted
              [CallLoadOlder; CallLoadNewer 1700000002000 1700000002000; CallLoadOlder]
              CallLoadOlder) as (_ & Hcall & Hrun & _).
  split; [vm_compute; reflexivity|]. split.
  - apply Hcall. vm_compute. reflexivity.
  - apply Hrun; vm_compute; reflexivity.
Defined.

(** Every entry whose service is in the filter is in the filtered view. *)
Lemma filteredLokiLogs_keeps (s : Store) (e : LogEntry) :
  e ∈ lokiLogs s → service e ∈ lokiServiceFilter s → e ∈ filteredLokiLogs s.
Proof.
  intros He Hs. unfold filteredLokiLogs. case_decide; [done|].
  by apply list_elem_of_filter.
Qed.

(** C10. In every state the event loop can reach the service filter holds
    at least one service.  [toggleServiceFilter] takes a service that is in
    the filter out of it only when the filter holds more than one; when it is
    the only one the state is unchanged; a service that is not in the filter is
    added at the end.  So the filter is not empty after the toggle either, and
    the filtered view keeps every entry of a service in it. *)
Theorem service_filter_never_empty (b : Build) (es : list Event) (svc : string) :
  let s := store (run b es initialMachine) in
  let l := lokiServiceFilter s in
  let l' := lokiServiceFilter (toggleServiceFilter svc s) in
  (1 ≤ length l)%nat
  ∧ (1 ≤ length l')%nat
  ∧ (svc ∈ l → (1 < length l)%nat →
     l' = delete (Z.to_nat (indexOf svc l)) l ∧ (svc ∉ l')
     ∧ length l' = (length l - 1)%nat)
  ∧ (svc ∈ l → length l = 1%nat → toggleServiceFilter svc s = s)
  ∧ (svc ∉ l → l' = l ++ [svc])
  ∧ (∀ e, e ∈ lokiLogs s → service e ∈ l → e ∈ filteredLokiLogs s).
Proof.
  intros s l l'. destruct (reachable_invariant b es) as [_ _ _ Hf _].
  fold s in Hf. fold l in Hf.
  pose proof (toggleServiceFilter_ok svc s Hf) as Hf'. fold l' in Hf'.
  destruct (toggleServiceFilter_cases svc s) as (Hdel & Hsame & Hadd).
  fold l l' in Hdel, Hsame, Hadd. destruct Hf as [Hne Hnd], Hf' as [Hne' _].
  split; [destruct l; simpl; [done|lia]|].
  split; [destruct l'; simpl; [done|lia]|].
  split; [|split; [|split]].
  - intros Hin Hlen. destruct (Hdel Hin Hlen) as [Heq Hl].
    split; [done|]. split; [|done].
    apply indexOf_elem, indexOf_found in Hin as [Hi _].
    rewrite Heq. intros Hin'. apply list_elem_of_lookup in Hin' as [j Hj].
    destruct (decide (j < Z.to_nat (indexOf svc l))%nat) as [Hlt|Hge].
    + rewrite list_lookup_delete_lt in Hj by done.
      pose proof (NoDup_lookup l _ _ svc Hnd Hi Hj). lia.
    + rewrite list_lookup_delete_ge in Hj by lia.
      pose proof (NoDup_lookup l _ _ svc Hnd Hi Hj). lia.
  - intros Hin Hlen. apply Hsame; [done|lia].
  - done.
  - intros e. apply filteredLokiLogs_keeps.
Qed.

Lemma service_filter_never_empty_witness :
  let s := store (run GlobalBuild
                    [CallToggleServiceFilter "ai"; CallToggleServiceFilter "base"]
                    initialMachine) in
  lokiServiceFilter s = ["server"]%string ∧ toggleServiceFilter "server" s = s.
Proof.
  intros s. split; [reflexivity|].
  destruct (service_filter_never_empty GlobalBuild
              [CallToggleServiceFilter "ai"; CallToggleServiceFilter "base"]
              "server") as (_ & _ & _ & H & _).
  apply H.
  - vm_compute. by left.
  - reflexivity.
Defined.

(** ** Ties, and batches that arrive in order *)

Section ties.

Implicit Types (l u : list LogEntry) (t : Z).

Lemma stamped_app t l1 l2 : stamped t (l1 ++ l2) = stamped t l1 ++ stamped t l2.
Proof. unfold stamped. apply filter_app. Qed.

Lemma stamped_cons t e l :
  stamped t (e :: l) = if decide (timestamp e = t) then e :: stamped t l else stamped t l.
Proof. unfold stamped. by rewrite filter_cons. Qed.

Lemma stamped_sort t l : stamped t (sort_by_timestamp l) = stamped t l.
Proof. apply sort_by_timestamp_stable. Qed.

Lemma stamped_nil_iff t l : stamped t l = [] ↔ ∀ e, e ∈ l → timestamp e ≠ t.
Proof.
  unfold stamped. induction l as [|x l IH].
  - split; [|done]. intros _ e He. by apply elem_of_nil in He.
  - rewrite filter_cons. case_decide as Hx.
    + split; [done|]. intros H. exfalso. by apply (H x); [left|].
    + rewrite IH. split.
      * intros H e He. apply elem_of_cons in He as [->|He]; [done|by apply H].
      * intros H e He. apply H. by right.
Qed.

Lemma nondecreasing_cons_inv x l :
  nondecreasing (x :: l) → nondecreasing l ∧ ∀ e, e ∈ l → timestamp x ≤ timestamp e.
Proof.
  intros H. split.
  - intros i j a c Hij Hi Hj. apply (H (S i) (S j) a c); [lia|done|done].
  - intros e He. apply list_elem_of_lookup in He as [j Hj].
    apply (H 0%nat (S j) x e); [lia|done|done].
Qed.

Lemma nondecreasing_StronglySorted l : nondecreasing l → StronglySorted ts_le l.
Proof.
  induction l as [|x l IH]; intros H; [constructor|].
  apply nondecreasing_cons_inv in H as [Hl Hx].
  constructor; [by apply IH|]. by apply Forall_forall.
Qed.

(** Two sorted lists that hold, for every timestamp, the same entries in the
    same order are the same list. *)
Lemma sorted_ties_unique l1 l2 :
  StronglySorted ts_le l1 → StronglySorted ts_le l2 →
  (∀ t, stamped t l1 = stamped t l2) → l1 = l2.
Proof.
  intros H1. revert l2. induction H1 as [|x l1 Hl1 IH Hx]; intros l2 H2 Heq.
  - destruct l2 as [|y l2]; [done|].
    specialize (Heq (timestamp y)). rewrite stamped_cons in Heq.
    rewrite decide_True in Heq by done. discriminate.
  - destruct H2 as [|y l2 Hl2 Hy].
    { specialize (Heq (timestamp x)). rewrite stamped_cons in Heq.
      rewrite decide_True in Heq by done. discriminate. }
    rewrite Forall_forall in Hx, Hy.
    assert (Hxy : timestamp y ≤ timestamp x).
    { assert (Hin : x ∈ stamped (timestamp x) (y :: l2)).
      { rewrite <- Heq, stamped_cons, decide_True by done. by left. }
      apply list_elem_of_filter in Hin as [_ Hin].
      apply elem_of_cons in Hin as [->|Hin]; [lia|]. by apply Hy. }
    assert (Hyx : timestamp x ≤ timestamp y).
    { assert (Hin : y ∈ stamped (timestamp y) (x :: l1)).
      { rewrite Heq, stamped_cons, decide_True by done. by left. }
      apply list_elem_of_filter in Hin as [_ Hin].
      apply elem_of_cons in Hin as [->|Hin]; [lia|]. by apply Hx. }
    assert (Ht : timestamp x = timestamp y) by lia.
    pose proof (Heq (timestamp x)) as H0.
    rewrite !stamped_cons in H0. rewrite decide_True in H0 by done.
    rewrite decide_True in H0 by done. simplify_eq.
    f_equal. apply IH; [done|]. intros t. specialize (Heq t).
    rewrite !stamped_cons in Heq. case_decide; by simplify_eq.
Qed.

Lemma sorted_app l1 l2 :
  StronglySorted ts_le l1 → StronglySorted ts_le l2 →
  (∀ a c, a ∈ l1 → c ∈ l2 → timestamp a ≤ timestamp c) →
  StronglySorted ts_le (l1 ++ l2).
Proof.
  intros H1 H2 H. induction H1 as [|x l1 Hl1 IH Hx]; [done|]. simpl.
  constructor.
  - apply IH. intros a c Ha Hc. apply H; [by right|done].
  - apply Forall_app. split; [done|].
    apply Forall_forall. intros c Hc. apply H; [by left|done].
Qed.

(** A sorted list followed by a sorted list of later entries is what the
    sort gives. *)
Lemma sort_app_in_order l1 l2 :
  StronglySorted ts_le l1 →
  (∀ a c, a ∈ l1 → c ∈ l2 → timestamp a ≤ timestamp c) →
  sort_by_timestamp (l1 ++ l2) = l1 ++ sort_by_timestamp l2.
Proof.
  intros H1 H. apply sorted_ties_unique.
  - apply sort_by_timestamp_sorted.
  - apply sorted_app; [done|apply sort_by_timestamp_sorted|].
    intros a c Ha Hc. apply H; [done|]. by rewrite <- sort_by_timestamp_perm.
  - intros t. by rewrite stamped_sort, !stamped_app, stamped_sort.
Qed.

Lemma sort_app_in_order_l l1 l2 :
  StronglySorted ts_le l2 →
  (∀ a c, a ∈ l1 → c ∈ l2 → timestamp a ≤ timestamp c) →
  sort_by_timestamp (l1 ++ l2) = sort_by_timestamp l1 ++ l2.
Proof.
  intros H2 H. apply sorted_ties_unique.
  - apply sort_by_timestamp_sorted.
  - apply sorted_app; [apply sort_by_timestamp_sorted|done|].
    intros a c Ha Hc. apply H; [|done]. by rewrite <- sort_by_timestamp_perm.
  - intros t. by rewrite stamped_sort, !stamped_app, stamped_sort.
Qed.

(** Where no timestamp is shared, the order of the two halves does not
    matter to the sort. *)
Lemma sort_app_comm l1 l2 :
  (∀ a c, a ∈ l1 → c ∈ l2 → timestamp a ≠ timestamp c) →
  sort_by_timestamp (l1 ++ l2) = sort_by_timestamp (l2 ++ l1).
Proof.
  intros H. apply sorted_ties_unique; try apply sort_by_timestamp_sorted.
  intros t. rewrite !stamped_sort, !stamped_app.
  destruct (stamped t l1) as [|a k1] eqn:E1; [by rewrite app_nil_r|].
  destruct (stamped t l2) as [|c k2] eqn:E2; [by rewrite app_nil_r|].
  exfalso.
  assert (Ha : a ∈ stamped t l1) by (rewrite E1; by left).
  assert (Hc : c ∈ stamped t l2) by (rewrite E2; by left).
  apply list_elem_of_filter in Ha as [Hta Ha], Hc as [Htc Hc].
  apply (H a c Ha Hc). congruence.
Qed.

Lemma uniqueNew_subset newLogs s e : e ∈ uniqueNew newLogs s → e ∈ newLogs.
Proof. intros He. by apply uniqueNew_elem in He as [? _]. Qed.

End ties.

(** ** More properties of the merge step *)

Lemma identity_key (a c : LogEntry) : identity a = identity c ↔ key a = key c.
Proof.
  rewrite key_eq_iff. unfold identity. split.
  - intros H. by simplify_eq.
  - intros [-> ->]. done.
Qed.

Lemma NoDup_identity_filter (P : LogEntry → Prop) `{∀ x, Decision (P x)}
    (l : list LogEntry) :
  NoDup (identity <$> l) → NoDup (identity <$> filter P l).
Proof.
  induction l as [|x l IH]; [done|]. rewrite fmap_cons, NoDup_cons.
  intros [Hx Hl]. rewrite filter_cons. case_decide; [|by apply IH].
  rewrite fmap_cons. apply NoDup_cons. split; [|by apply IH].
  intros Hin. apply Hx. apply list_elem_of_fmap in Hin as (y & Hy & Hin).
  apply list_elem_of_filter in Hin as [_ Hin].
  apply list_elem_of_fmap. by exists y.
Qed.

Lemma uniqueNew_all (newLogs : list LogEntry) (s : Store) :
  (∀ a c, a ∈ newLogs → c ∈ lokiLogs s → identity a ≠ identity c) →
  uniqueNew newLogs s = newLogs.
Proof.
  intros H. unfold uniqueNew.
  assert (Hall : ∀ a, a ∈ newLogs → key a ∉ key <$> lokiLogs s).
  { intros a Ha Hin. apply list_elem_of_fmap in Hin as (c & Hk & Hc).
    apply (H a c Ha Hc). by apply identity_key. }
  clear H. induction newLogs as [|x l IH]; [done|].
  rewrite filter_cons. rewrite decide_True.
  - f_equal. apply IH. intros a Ha. apply Hall. by right.
  - rewrite elem_of_list_to_set. apply Hall. by left.
Qed.

(** X1. Entries that carry the same timestamp keep their order of arrival
    through a merge: the entries the window held come first when the batch is
    appended, and the new ones come first, in the order of the batch, when it
    is prepended. *)
Theorem mergeLogs_keeps_arrival_order
    (newLogs : list LogEntry) (prepend : bool) (s : Store) (t : Z) :
  stamped t (lokiLogs (mergeLogs newLogs prepend s).1)
  = if prepend
    then stamped t (uniqueNew newLogs s) ++ stamped t (lokiLogs s)
    else stamped t (lokiLogs s) ++ stamped t (uniqueNew newLogs s).
Proof.
  destruct (decide (uniqueNew newLogs s = [])) as [Hu|Hu].
  - rewrite mergeLogs_nothing_new by done. rewrite Hu. simpl.
    rewrite app_nil_r. by repeat case_match.
  - rewrite mergeLogs_something_new, merged_logs, stamped_sort by done.
    destruct prepend; apply stamped_app.
Qed.

(** X2. The prepend flag only decides the order among equal timestamps:
    when no entry of the batch shares its timestamp with an entry of the
    window, prepending and appending leave the same entry sequence, the same
    bounds and the same count. *)
Theorem mergeLogs_prepend_only_orders_ties (newLogs : list LogEntry) (s : Store) :
  (∀ a c, a ∈ newLogs → c ∈ lokiLogs s → timestamp a ≠ timestamp c) →
  let front := mergeLogs newLogs true s in
  let back := mergeLogs newLogs false s in
  lokiLogs front.1 = lokiLogs back.1
  ∧ lokiEarliestMs front.1 = lokiEarliestMs back.1
  ∧ lokiLatestMs front.1 = lokiLatestMs back.1
  ∧ front.2 = back.2.
Proof.
  intros H front back. unfold front, back.
  rewrite !mergeLogs_count.
  destruct (decide (uniqueNew newLogs s = [])) as [Hu|Hu].
  - rewrite !mergeLogs_nothing_new by done. by repeat case_match.
  - rewrite !mergeLogs_something_new by done. unfold merged.
    rewrite (sort_app_comm (uniqueNew newLogs s) (lokiLogs s)); [done|].
    intros a c Ha Hc. apply H; [|done]. by eapply uniqueNew_subset.
Qed.

Lemma mergeLogs_prepend_only_orders_ties_witness :
  lokiLogs (mergeLogs [entry 30 "c"; entry 10 "a"] true
              (set_lokiLogs [entry 20 "b"] initialStore)).1
  = lokiLogs (mergeLogs [entry 30 "c"; entry 10 "a"] false
                (set_lokiLogs [entry 20 "b"] initialStore)).1.
Proof.
  apply (mergeLogs_prepend_only_orders_ties [entry 30 "c"; entry 10 "a"]
           (set_lokiLogs [entry 20 "b"] initialStore)).
  intros a c Ha Hc. simpl in Hc. apply list_elem_of_singleton in Hc as ->.
  apply elem_of_cons in Ha as [->|Ha]; [done|].
  apply list_elem_of_singleton in Ha as ->. done.
Defined.

(** X3. A batch that arrives in order does not move what is on screen: when
    the window is sorted and no entry of the batch is older than an entry of
    the window, appending leaves the old entries in front, followed by the
    new ones sorted; when none is newer, prepending leaves the old entries at
    the end. *)
Theorem mergeLogs_batch_in_order (newLogs : list LogEntry) (s : Store) :
  nondecreasing (lokiLogs s) →
  ((∀ a c, a ∈ lokiLogs s → c ∈ newLogs → timestamp a ≤ timestamp c) →
   lokiLogs (mergeLogs newLogs false s).1
   = lokiLogs s ++ sort_by_timestamp (uniqueNew newLogs s))
  ∧ ((∀ a c, a ∈ newLogs → c ∈ lokiLogs s → timestamp a ≤ timestamp c) →
     lokiLogs (mergeLogs newLogs true s).1
     = sort_by_timestamp (uniqueNew newLogs s) ++ lokiLogs s).
Proof.
  intros Hs. apply nondecreasing_StronglySorted in Hs. split; intros H.
  - destruct (decide (uniqueNew newLogs s = [])) as [Hu|Hu].
    + rewrite mergeLogs_nothing_new by done. rewrite Hu. simpl.
      rewrite app_nil_r. by repeat case_match.
    + rewrite mergeLogs_something_new, merged_logs by done.
      apply sort_app_in_order; [done|].
      intros a c Ha Hc. apply H; [done|]. by eapply uniqueNew_subset.
  - destruct (decide (uniqueNew newLogs s = [])) as [Hu|Hu].
    + rewrite mergeLogs_nothing_new by done. rewrite Hu. simpl.
      by repeat case_match.
    + rewrite mergeLogs_something_new, merged_logs by done.
      apply sort_app_in_order_l; [done|].
      intros a c Ha Hc. apply H; [|done]. by eapply uniqueNew_subset.
Qed.

Lemma mergeLogs_batch_in_order_witness :
  lokiLogs (mergeLogs [entry 1699999900000 "d"; entry 1699999500000 "c"] false
              populatedStore).1
  = lokiLogs populatedStore
    ++ [entry 1699999500000 "c"; entry 1699999900000 "d"].
Proof.
  destruct (mergeLogs_batch_in_order
              [entry 1699999900000 "d"; entry 1699999500000 "c"] populatedStore)
    as [Happend _].
  - apply StronglySorted_nondecreasing. repeat constructor; unfold ts_le; simpl; lia.
  - rewrite Happend; [reflexivity|].
    intros a c Ha Hc. simpl in Ha.
    apply elem_of_cons in Ha as [->|Ha]; [|apply list_elem_of_singleton in Ha as ->];
      (apply elem_of_cons in Hc as [->|Hc];
       [|apply list_elem_of_singleton in Hc as ->]); simpl; lia.
Defined.

(** X4. If no two entries of the window share timestamp and raw text, and
    no two entries of the batch do, then no two entries of the window do
    after the merge. *)
Theorem mergeLogs_keeps_identities_distinct
    (newLogs : list LogEntry) (prepend : bool) (s : Store) :
  NoDup (identity <$> lokiLogs s) → NoDup (identity <$> newLogs) →
  NoDup (identity <$> lokiLogs (mergeLogs newLogs prepend s).1).
Proof.
  intros Hs Hn. rewrite mergeLogs_perm, fmap_app. apply NoDup_app.
  split; [done|]. split.
  - intros x Hx Hx'. apply list_elem_of_fmap in Hx as (c & -> & Hc).
    apply list_elem_of_fmap in Hx' as (a & Heq & Ha).
    apply uniqueNew_elem in Ha as [_ Ha]. apply Ha.
    apply list_elem_of_fmap. exists c. split; [|done].
    symmetry. by apply identity_key.
  - unfold uniqueNew. by apply NoDup_identity_filter.
Qed.

Lemma mergeLogs_keeps_identities_distinct_witness :
  NoDup (identity <$> lokiLogs
           (mergeLogs [entry 1699999000000 "b"; entry 1699999500000 "c"] false
              populatedStore).1).
Proof.
  apply (mergeLogs_keeps_identities_distinct
           [entry 1699999000000 "b"; entry 1699999500000 "c"] false populatedStore);
    by apply (bool_decide_unpack _).
Defined.

(** X5. Duplicates are looked for in the window only, not inside the batch:
    a batch none of whose entries has the timestamp and raw text of an entry
    of the window is added whole, repeated entries included, and the count is
    its length. *)
Theorem mergeLogs_adds_whole_batch
    (newLogs : list LogEntry) (prepend : bool) (s : Store) :
  (∀ a c, a ∈ newLogs → c ∈ lokiLogs s → identity a ≠ identity c) →
  (mergeLogs newLogs prepend s).2 = length newLogs
  ∧ lokiLogs (mergeLogs newLogs prepend s).1 ≡ₚ lokiLogs s ++ newLogs.
Proof.
  intros H. rewrite mergeLogs_count, mergeLogs_perm, (uniqueNew_all _ _ H). done.
Qed.

Lemma mergeLogs_adds_whole_batch_witness :
  (mergeLogs [entry 5 "x"; entry 5 "x"] false initialStore).2 = 2%nat
  ∧ lokiLogs (mergeLogs [entry 5 "x"; entry 5 "x"] false initialStore).1
    ≡ₚ [entry 5 "x"; entry 5 "x"].
Proof.
  apply (mergeLogs_adds_whole_batch [entry 5 "x"; entry 5 "x"] false initialStore).
  intros a c _ Hc. simpl in Hc. by apply elem_of_nil in Hc.
Defined.

(** ** What each event leaves alone *)

Section quiet.

Implicit Types (b : Build) (m : Machine) (s : Store).

Lemma same_entries_refl s : same_entries s s.
Proof. done. Qed.

Lemma same_entries_trans s1 s2 s3 :
  same_entries s1 s2 → same_entries s2 s3 → same_entries s1 s3.
Proof. intros (A1 & A2 & A3) (B1 & B2 & B3). repeat split; congruence. Qed.

Lemma same_polling_trans s1 s2 s3 :
  same_polling s1 s2 → same_polling s2 s3 → same_polling s1 s3.
Proof. intros (A1 & A2) (B1 & B2). split; congruence. Qed.

Lemma same_services_trans s1 s2 s3 :
  same_services s1 s2 → same_services s2 s3 → same_services s1 s3.
Proof. intros (A1 & A2) (B1 & B2). split; congruence. Qed.

Lemma call_loadOlderLogs_quiet b m :
  same_entries (store m) (store (call_loadOlderLogs b m))
  ∧ same_polling (store m) (store (call_loadOlderLogs b m))
  ∧ same_services (store m) (store (call_loadOlderLogs b m))
  ∧ lokiLoadingNewer (store (call_loadOlderLogs b m)) = lokiLoadingNewer (store m)
  ∧ lokiAutoScroll (store (call_loadOlderLogs b m)) = lokiAutoScroll (store m).
Proof.
  unfold call_loadOlderLogs, loadOlderLogs_begin. by destruct (_ || _ || _).
Qed.

Lemma call_loadNewerLogs_quiet b now1 now2 m :
  same_entries (store m) (store (call_loadNewerLogs b now1 now2 m))
  ∧ same_polling (store m) (store (call_loadNewerLogs b now1 now2 m))
  ∧ same_services (store m) (store (call_loadNewerLogs b now1 now2 m))
  ∧ lokiLoadingOlder (store (call_loadNewerLogs b now1 now2 m))
    = lokiLoadingOlder (store m)
  ∧ lokiCanLoadOlder (store (call_loadNewerLogs b now1 now2 m))
    = lokiCanLoadOlder (store m)
  ∧ lokiAutoScroll (store (call_loadNewerLogs b now1 now2 m))
    = lokiAutoScroll (store m).
Proof.
  unfold call_loadNewerLogs, loadNewerLogs_begin. by destruct (lokiLoadingNewer _).
Qed.

Lemma handleLokiScroll_quiet b geometry now1 now2 m :
  same_entries (store m) (store (handleLokiScroll b geometry now1 now2 m))
  ∧ same_polling (store m) (store (handleLokiScroll b geometry now1 now2 m))
  ∧ same_services (store m) (store (handleLokiScroll b geometry now1 now2 m)).
Proof.
  unfold handleLokiScroll. destruct b; [done|].
  destruct geometry as [[[scrollTop scrollHeight] clientHeight]|]; [|done].
  set (m1 := mkMachine _ _ _).
  set (m2 := if _ && negb (lokiLoadingNewer (store m1)) then _ else m1).
  assert (H2 : same_entries (store m) (store m2) ∧ same_polling (store m) (store m2)
               ∧ same_services (store m) (store m2)).
  { unfold m2. case_match; [|done].
    destruct (call_loadNewerLogs_quiet ModuleBuild now1 now2 m1) as (A & B & C & _).
    done. }
  destruct H2 as (A & B & C). case_match; [|done].
  destruct (call_loadOlderLogs_quiet ModuleBuild m2) as (A' & B' & C' & _).
  split; [by eapply same_entries_trans|].
  split; [by eapply same_polling_trans|by eapply same_services_trans].
Qed.

Lemma mergeLogs_quiet newLogs prepend s :
  same_polling s (mergeLogs newLogs prepend s).1
  ∧ same_services s (mergeLogs newLogs prepend s).1.
Proof.
  destruct (decide (uniqueNew newLogs s = [])) as [Hu|Hu].
  - rewrite mergeLogs_nothing_new by done. by repeat case_match.
  - rewrite mergeLogs_something_new by done. unfold merged, updateBounds.
    by repeat case_match.
Qed.

Lemma fetchLokiLogs_resume_quiet prepend r s :
  same_polling s (fetchLokiLogs_resume prepend r s).1.1
  ∧ same_services s (fetchLokiLogs_resume prepend r s).1.1.
Proof.
  destruct r as [message|[[newLogs|]|]]; simpl; try done.
  pose proof (mergeLogs_quiet newLogs prepend s) as H.
  by destruct (mergeLogs newLogs prepend s).
Qed.

Lemma caller_resume_quiet b caller count s :
  same_entries s (caller_resume b caller count s).1
  ∧ same_polling s (caller_resume b caller count s).1
  ∧ same_services s (caller_resume b caller count s).1.
Proof. destruct caller; simpl; try done. by case_decide. Qed.

Lemma toggleServiceFilter_quiet svc s :
  same_entries s (toggleServiceFilter svc s)
  ∧ same_polling s (toggleServiceFilter svc s)
  ∧ lokiServices (toggleServiceFilter svc s) = lokiServices s.
Proof. unfold toggleServiceFilter. by repeat case_decide. Qed.

(** What one event can do to the entries and the bounds: nothing, empty the
    window, or merge the answer of a query. *)
Lemma step_entries b e m :
  same_entries (store m) (store (step b e m))
  ∨ (is_reset e = true ∧ lokiLogs (store (step b e m)) = [])
  ∨ (∃ newLogs prepend,
       store (step b e m) = (mergeLogs newLogs prepend (store m)).1).
Proof.
  destruct e; simpl.
  - right; left. done.
  - left. apply call_loadOlderLogs_quiet.
  - left. apply call_loadNewerLogs_quiet.
  - right; left. done.
  - left. apply toggleServiceFilter_quiet.
  - left. done.
  - left. apply handleLokiScroll_quiet.
  - left. unfold startLokiPolling. by case_match.
  - left. unfold stopLokiPolling. by case_match.
  - left. case_match; [apply call_loadNewerLogs_quiet|done].
  - destruct (pending m !! i) as [[caller call|caller count]|]; try by left.
    destruct r as [message|[[newLogs|]|]]; simpl; try by left.
    right; right. exists newLogs, (prepend call).
    by destruct (mergeLogs newLogs (prepend call) (store m)).
  - destruct (pending m !! i) as [[caller call|caller count]|]; try by left.
    left. pose proof (caller_resume_quiet b caller count (store m)) as (H & _).
    by destruct (caller_resume b caller count (store m)).
Qed.

Lemma mergeLogs_bounds_track newLogs prepend s :
  bounds_track s → bounds_track (mergeLogs newLogs prepend s).1.
Proof.
  intros Hs. destruct (decide (uniqueNew newLogs s = [])) as [Hu|Hu].
  - rewrite mergeLogs_nothing_new by done.
    case_decide; [|done]. by destruct prepend.
  - rewrite mergeLogs_something_new by done.
    destruct (merged_bounds newLogs prepend s Hu) as (f & l & Hf & Hl & He & Hla).
    intros first final H1 H2. rewrite H1 in Hf. rewrite H2 in Hl. by simplify_eq.
Qed.

Lemma step_bounds_track b e m :
  bounds_track (store m) → bounds_track (store (step b e m)).
Proof.
  intros Hs. destruct (step_entries b e m) as [(E1 & E2 & E3)|[[_ E]|(n & p & E)]].
  - intros first final H1 H2. rewrite E1 in H1, H2. rewrite E2, E3. by apply Hs.
  - intros first final H1. by rewrite E in H1.
  - rewrite E. by apply mergeLogs_bounds_track.
Qed.

Lemma run_bounds_track b es m :
  bounds_track (store m) → bounds_track (store (run b es m)).
Proof.
  revert m. induction es as [|e es IH]; intros m Hs; [done|].
  simpl. apply IH. by apply step_bounds_track.
Qed.

End quiet.

(** ** More properties of the event loop *)

Lemma bounds_track_initial : bounds_track initialStore.
Proof. intros first final H. discriminate. Qed.

(** X6. In every state the event loop can reach, the window is empty or
    the bounds are the timestamps of its first and last entry, and every
    entry lies between them: the bounds never drift from a window that
    holds entries. *)
Theorem bounds_follow_the_window (b : Build) (es : list Event) :
  let s := store (run b es initialMachine) in
  lokiLogs s = []
  ∨ ∃ first final,
      head (lokiLogs s) = Some first ∧ last (lokiLogs s) = Some final
      ∧ lokiEarliestMs s = timestamp first ∧ lokiLatestMs s = timestamp final
      ∧ ∀ e, e ∈ lokiLogs s → lokiEarliestMs s ≤ timestamp e ≤ lokiLatestMs s.
Proof.
  intros s.
  pose proof (run_bounds_track b es initialMachine bounds_track_initial) as Hb.
  destruct (reachable_invariant b es) as [_ _ _ _ Hs].
  fold s in Hb, Hs. apply nondecreasing_StronglySorted in Hs.
  destruct (lokiLogs s) as [|x l] eqn:El; [by left|right].
  destruct (last_is_Some (x :: l)) as [_ Hl]. destruct Hl as [final Hfinal]; [done|].
  exists x, final. destruct (Hb x final) as [He Hla]; [by rewrite El..|].
  repeat split; try done.
  - rewrite He. eapply sorted_head_least; [exact Hs|done|done].
  - rewrite Hla. by eapply sorted_last_greatest.
Qed.

Lemma step_never_shrinks b e m :
  is_reset e = false → lokiLogs (store m) ⊆+ lokiLogs (store (step b e m)).
Proof.
  intros He. destruct (step_entries b e m) as [(E1 & _)|[[E _]|(n & p & E)]].
  - by rewrite E1.
  - congruence.
  - rewrite E, mergeLogs_perm. by apply submseteq_inserts_r.
Qed.

(** X7. The window never loses an entry except by [initLokiLogs] and
    [clearLokiLogs]: through any other events, every entry it held is still
    there, as many times as before. *)
Theorem window_never_shrinks (b : Build) (es : list Event) (m : Machine) :
  forallb (λ e, negb (is_reset e)) es = true →
  lokiLogs (store m) ⊆+ lokiLogs (store (run b es m)).
Proof.
  revert m. induction es as [|e es IH]; intros m Hes; [done|].
  simpl in Hes. apply andb_true_iff in Hes as [He Hes].
  apply negb_true_iff in He. simpl.
  etrans; [by apply step_never_shrinks|by apply IH].
Qed.

Lemma window_never_shrinks_witness :
  lokiLogs (store (run GlobalBuild olderInFlight initialMachine))
  ⊆+ lokiLogs
       (store (run GlobalBuild
                 [ApiSettles 0 (Fulfilled (Some (Some [entry 1699998000000 "a"])));
                  Resumes 0; CallLoadNewer 1700000001000 1700000001000;
                  ApiSettles 0 (Rejected "down")]
                 (run GlobalBuild olderInFlight initialMachine))).
Proof.
  apply (window_never_shrinks GlobalBuild
           [ApiSettles 0 (Fulfilled (Some (Some [entry 1699998000000 "a"])));
            Resumes 0; CallLoadNewer 1700000001000 1700000001000;
            ApiSettles 0 (Rejected "down")]).
  reflexivity.
Defined.

Lemma step_polling b e m :
  is_poll_switch e = false → same_polling (store m) (store (step b e m)).
Proof.
  intros He. destruct e; simpl; try done.
  - apply call_loadOlderLogs_quiet.
  - apply call_loadNewerLogs_quiet.
  - apply toggleServiceFilter_quiet.
  - apply handleLokiScroll_quiet.
  - case_match; [apply call_loadNewerLogs_quiet|done].
  - destruct (pending m !! i) as [[caller call|caller count]|]; try done.
    pose proof (fetchLokiLogs_resume_quiet (prepend call) r (store m)) as [H _].
    by destruct (fetchLokiLogs_resume (prepend call) r (store m)) as [[? ?] ?].
  - destruct (pending m !! i) as [[caller call|caller count]|]; try done.
    pose proof (caller_resume_quiet b caller count (store m)) as (_ & H & _).
    by destruct (caller_resume b caller count (store m)).
Qed.

Lemma step_polling_flag b e m :
  lokiPolling (store m) = lokiPollTimer (store m) →
  lokiPolling (store (step b e m)) = lokiPollTimer (store (step b e m)).
Proof.
  intros H. destruct (is_poll_switch e) eqn:He.
  - destruct e; try discriminate; simpl.
    + unfold startLokiPolling.
      destruct (lokiPollTimer (store m)) eqn:E; simpl; congruence.
    + unfold stopLokiPolling.
      destruct (lokiPollTimer (store m)) eqn:E; simpl; congruence.
  - destruct (step_polling b e m He) as [-> ->]. done.
Qed.

(** X8. The [lokiPolling] flag the page shows is on exactly when the
    interval timer is armed, in every state the event loop can reach.  Only
    [startLokiPolling] and [stopLokiPolling] change either; in particular a
    rejected query does not stop the poller.  A tick of a timer that is not
    armed does nothing. *)
Theorem polling_flag_is_the_timer
    (b : Build) (es : list Event) (e : Event) (now1 now2 : Z) (m : Machine) :
  lokiPolling (store (run b es initialMachine))
  = lokiPollTimer (store (run b es initialMachine))
  ∧ (is_poll_switch e = false → same_polling (store m) (store (step b e m)))
  ∧ (lokiPollTimer (store m) = false → step b (TimerTick now1 now2) m = m)
  ∧ lokiPollTimer (store (step b CallStartPolling m)) = true
  ∧ lokiPollTimer (store (step b CallStopPolling m)) = false.
Proof.
  split; [|split; [|split; [|split]]].
  - induction es as [|e' es IH] using rev_ind; [done|].
    rewrite run_app. simpl. by apply step_polling_flag.
  - apply step_polling.
  - intros H. simpl. by rewrite H.
  - simpl. unfold startLokiPolling. by destruct (lokiPollTimer (store m)) eqn:H.
  - simpl. unfold stopLokiPolling. by destruct (lokiPollTimer (store m)) eqn:H.
Qed.

Lemma polling_flag_is_the_timer_witness :
  same_polling
    (store (run GlobalBuild (CallStartPolling :: olderInFlight) initialMachine))
    (store (step GlobalBuild (ApiSettles 0 (Rejected "down"))
              (run GlobalBuild (CallStartPolling :: olderInFlight) initialMachine)))
  ∧ lokiPollTimer
      (store (step GlobalBuild (ApiSettles 0 (Rejected "down"))
                (run GlobalBuild (CallStartPolling :: olderInFlight) initialMachine)))
    = true.
Proof.
  destruct (polling_flag_is_the_timer GlobalBuild [] (ApiSettles 0 (Rejected "down"))
              0 0 (run GlobalBuild (CallStartPolling :: olderInFlight) initialMachine))
    as (_ & H & _).
  split; [apply H; reflexivity|vm_compute; reflexivity].
Defined.








(** X10. What a scroll event triggers in the module build: auto-scroll is
    set to "within 100 of the bottom"; one query of [loadNewerLogs] is sent
    exactly when the view is at the bottom and none is in flight; one query of
    [loadOlderLogs] is sent exactly when the view is within 50 of the top,
    none is in flight, [lokiCanLoadOlder] is on and the window is not empty;
    the entries and bounds are not touched.  Without a container, and in the
    global build, the handler does nothing. *)
Theorem handleLokiScroll_triggers
    (now1 now2 scrollTop scrollHeight clientHeight : Z) (m : Machine) :
  let m' := handleLokiScroll ModuleBuild
              (Some (scrollTop, scrollHeight, clientHeight)) now1 now2 m in
  let atBottom := bool_decide (scrollHeight - scrollTop - clientHeight < 100) in
  let nearTop := bool_decide (scrollTop < 50) in
  lokiAutoScroll (store m') = atBottom
  ∧ fetches_by NewerCaller (effects m')
    = (fetches_by NewerCaller (effects m)
       + if atBottom && negb (lokiLoadingNewer (store m)) then 1 else 0)%nat
  ∧ fetches_by OlderCaller (effects m')
    = (fetches_by OlderCaller (effects m)
       + if nearTop && negb (lokiLoadingOlder (store m)) && lokiCanLoadOlder (store m)
            && negb (bool_decide (length (lokiLogs (store m)) = 0%nat))
         then 1 else 0)%nat
  ∧ fetches_by InitCaller (effects m') = fetches_by InitCaller (effects m)
  ∧ same_entries (store m) (store m')
  ∧ handleLokiScroll ModuleBuild None now1 now2 m = m
  ∧ ∀ geometry, handleLokiScroll GlobalBuild geometry now1 now2 m = m.
Proof.
  intros m' atBottom nearTop. unfold m'.
  split; [|split; [|split; [|split; [|split; [|split; [done|done]]]]]];
    unfold handleLokiScroll, call_loadNewerLogs, call_loadOlderLogs,
      loadNewerLogs_begin, loadOlderLogs_begin; fold atBottom; fold nearTop;
    destruct atBottom, nearTop, (lokiLoadingNewer (store m)) eqn:E1,
      (lokiLoadingOlder (store m)) eqn:E2, (lokiCanLoadOlder (store m)) eqn:E3,
      (bool_decide (length (lokiLogs (store m)) = 0%nat)) eqn:E4;
    simpl; rewrite ?E1, ?E2, ?E3, ?E4; simpl; rewrite ?E1, ?E2, ?E3, ?E4; simpl;
    rewrite ?fetches_by_app, ?fetches_by_one; simpl; try done; lia.
Qed.

Lemma sorted_sublist (l1 l2 : list LogEntry) :
  l1 `sublist_of` l2 → StronglySorted ts_le l2 → StronglySorted ts_le l1.
Proof.
  induction 1 as [|x l1 l2 Hsub IH|x l1 l2 Hsub IH]; intros Hs; [done|..].
  - apply StronglySorted_inv in Hs as [Hl Hx]. constructor; [by apply IH|].
    rewrite Forall_forall in Hx. apply Forall_forall. intros y Hy.
    apply Hx. by eapply sublist_subseteq.
  - apply StronglySorted_inv in Hs as [Hl _]. by apply IH.
Qed.

Lemma filteredLokiLogs_sublist (s : Store) :
  filteredLokiLogs s `sublist_of` lokiLogs s.
Proof. unfold filteredLokiLogs. case_decide; [done|apply sublist_filter]. Qed.

(** X11. The filtered view shows entries of the window in the order of the
    window, so in every state the event loop can reach it is sorted by
    timestamp too. *)
Theorem filteredLokiLogs_is_sorted_part (b : Build) (es : list Event) :
  let s := store (run b es initialMachine) in
  filteredLokiLogs s `sublist_of` lokiLogs s
  ∧ nondecreasing (filteredLokiLogs s).
Proof.
  intros s. split; [apply filteredLokiLogs_sublist|].
  destruct (reachable_invariant b es) as [_ _ _ _ Hs]. fold s in Hs.
  apply StronglySorted_nondecreasing.
  eapply sorted_sublist; [apply filteredLokiLogs_sublist|].
  by apply nondecreasing_StronglySorted.
Qed.

(** The filter lists known services only, as long as only known services
    are toggled. *)
Lemma step_filter_known b e m :
  toggles_unknown e = false →
  lokiServices (store m) = lokiServices initialStore →
  lokiServiceFilter (store m) ⊆ lokiServices initialStore →
  lokiServices (store (step b e m)) = lokiServices initialStore
  ∧ lokiServiceFilter (store (step b e m)) ⊆ lokiServices initialStore.
Proof.
  intros He Hs Hf.
  assert (Hsame : ∀ s', same_services (store m) s' →
            lokiServices s' = lokiServices initialStore
            ∧ lokiServiceFilter s' ⊆ lokiServices initialStore).
  { intros s' [-> ->]. done. }
  destruct e; simpl; try (by apply Hsame).
  - apply Hsame, call_loadOlderLogs_quiet.
  - apply Hsame, call_loadNewerLogs_quiet.
  - split; [by destruct (toggleServiceFilter_quiet svc (store m)) as (_ & _ & ->)|].
    simpl in He. apply negb_false_iff, bool_decide_eq_true in He.
    destruct (toggleServiceFilter_cases svc (store m)) as (Hdel & Hkeep & Hadd).
    destruct (decide (svc ∈ lokiServiceFilter (store m))) as [Hin|Hout].
    + destruct (decide (1 < length (lokiServiceFilter (store m)))%nat) as [Hl|Hl].
      * destruct (Hdel Hin Hl) as [-> _]. etrans; [apply list_subseteq_delete|done].
      * rewrite Hkeep by (done || lia). done.
    + rewrite (Hadd Hout). intros x Hx. apply elem_of_app in Hx as [Hx|Hx].
      * by apply Hf.
      * apply list_elem_of_singleton in Hx as ->. done.
  - apply Hsame, handleLokiScroll_quiet.
  - apply Hsame. unfold startLokiPolling. by case_match.
  - apply Hsame. unfold stopLokiPolling. by case_match.
  - case_match; [apply Hsame, call_loadNewerLogs_quiet|by apply Hsame].
  - destruct (pending m !! i) as [[caller call|caller count]|]; try by apply Hsame.
    pose proof (fetchLokiLogs_resume_quiet (prepend call) r (store m)) as [_ H].
    destruct (fetchLokiLogs_resume (prepend call) r (store m)) as [[? ?] ?].
    by apply Hsame.
  - destruct (pending m !! i) as [[caller call|caller count]|]; try by apply Hsame.
    pose proof (caller_resume_quiet b caller count (store m)) as (_ & _ & H).
    destruct (caller_resume b caller count (store m)). by apply Hsame.
Qed.

Lemma run_filter_known b es :
  forallb (λ ev, negb (toggles_unknown ev)) es = true →
  lokiServices (store (run b es initialMachine)) = lokiServices initialStore
  ∧ lokiServiceFilter (store (run b es initialMachine)) ⊆ lokiServices initialStore.
Proof.
  induction es as [|e es IH] using rev_ind; intros Hes; [done|].
  rewrite forallb_app in Hes. apply andb_true_iff in Hes as [Hes He].
  simpl in He. rewrite andb_true_r in He. apply negb_true_iff in He.
  rewrite run_app. simpl. destruct (IH Hes) as [H1 H2].
  by apply step_filter_known.
Qed.

(** X12. As long as only services that [lokiServices] lists are toggled,
    the shortcut on the lengths is sound: an entry of a listed service is in
    the filtered view exactly when its service is selected.  An entry whose
    service is not listed is in the view exactly when all listed services are
    selected. *)
Theorem filteredLokiLogs_selects_by_service
    (b : Build) (es : list Event) (e : LogEntry) :
  forallb (λ ev, negb (toggles_unknown ev)) es = true →
  let s := store (run b es initialMachine) in
  e ∈ lokiLogs s →
  (service e ∈ lokiServices s →
   (e ∈ filteredLokiLogs s ↔ service e ∈ lokiServiceFilter s))
  ∧ (service e ∉ lokiServices s →
     (e ∈ filteredLokiLogs s
      ↔ length (lokiServiceFilter s) = length (lokiServices s))).
Proof.
  intros Hes s He. destruct (run_filter_known b es Hes) as [Hs Hf].
  destruct (reachable_invariant b es) as [_ _ _ [_ Hnd] _].
  fold s in Hs, Hf, Hnd. unfold filteredLokiLogs. rewrite Hs.
  split; intros Hsvc.
  - case_decide as Hlen.
    + split; [|done]. intros _.
      assert (Hp : lokiServiceFilter s ≡ₚ lokiServices initialStore).
      { apply submseteq_length_Permutation; [by apply NoDup_submseteq|lia]. }
      by rewrite Hp.
    + rewrite list_elem_of_filter. tauto.
  - case_decide as Hlen.
    + done.
    + rewrite list_elem_of_filter. split; [|done].
      intros [Hin _]. exfalso. apply Hsvc. by apply Hf.
Qed.

Lemma filteredLokiLogs_selects_by_service_witness :
  let s := store (run GlobalBuild
                    (olderInFlight ++ [CallToggleServiceFilter "server"])
                    initialMachine) in
  entry 1699999000000 "b" ∉ filteredLokiLogs s.
Proof.
  intros s.
  destruct (filteredLokiLogs_selects_by_service GlobalBuild
              (olderInFlight ++ [CallToggleServiceFilter "server"])
              (entry 1699999000000 "b")) as [H _].
  - reflexivity.
  - vm_compute. by left.
  - assert (Hn : service (entry 1699999000000 "b") ∉ lokiServiceFilter s).
    { apply (bool_decide_unpack _). by vm_compute. }
    intros Hin. apply Hn, H; [|done].
    apply (bool_decide_unpack _). by vm_compute.
Defined.

(** ** The time range, the refresh and the clearing *)

Section time_range.

Lemma split_on_free (sep : ascii) (w : string) :
  char_free sep w → split_on sep w = [w].
Proof.
  induction w as [|c w IH]; [done|]. intros [Hc Hw]. simpl.
  rewrite decide_False by done. by rewrite IH.
Qed.

Lemma split_on_field (sep : ascii) (w rest : string) :
  char_free sep w →
  split_on sep (w +:+ String sep rest) = w :: split_on sep rest.
Proof.
  induction w as [|c w IH]; intros Hw; simpl.
  - by rewrite decide_True.
  - destruct Hw as [Hc Hw]. rewrite decide_False by done. by rewrite IH.
Qed.

Lemma timeOfDay_second_field (d t : string) :
  char_free " " d → char_free " " t → timeOfDay (d +:+ " " +:+ t) = t.
Proof.
  intros Hd Ht. unfold timeOfDay.
  change (d +:+ " " +:+ t)%string with (d +:+ String " " t)%string.
  by rewrite split_on_field, split_on_free.
Qed.

Lemma timeOfDay_one_field (w : string) : char_free " " w → timeOfDay w = ""%string.
Proof. intros Hw. unfold timeOfDay. by rewrite split_on_free. Qed.

Lemma range_not_empty (a c : string) : (a +:+ " ~ " +:+ c)%string ≠ ""%string.
Proof. by destruct a. Qed.

End time_range.

(** X13. The time range is the empty string exactly when the window is
    empty.  Otherwise it joins the second space-separated field of the first
    entry's [time_str] and of the last entry's: for time strings of the form
    date, space, time it reads "time of the first ~ time of the last"; a
    time string without a space contributes nothing. *)
Theorem lokiTimeRange_shows_both_ends (s : Store) (first final : LogEntry)
    (d1 t1 d2 t2 : string) :
  (lokiTimeRange s = ""%string ↔ lokiLogs s = [])
  ∧ (head (lokiLogs s) = Some first → last (lokiLogs s) = Some final →
     char_free " " d1 → char_free " " t1 → char_free " " d2 → char_free " " t2 →
     time_str first = (d1 +:+ " " +:+ t1)%string →
     time_str final = (d2 +:+ " " +:+ t2)%string →
     lokiTimeRange s = (t1 +:+ " ~ " +:+ t2)%string)
  ∧ (head (lokiLogs s) = Some first → last (lokiLogs s) = Some final →
     char_free " " (time_str first) → char_free " " (time_str final) →
     lokiTimeRange s = " ~ "%string).
Proof.
  unfold lokiTimeRange. split; [|split].
  - case_decide as Hl.
    + apply length_zero_iff_nil in Hl. done.
    + assert (Hne : lokiLogs s ≠ []) by (intros E; by rewrite E in Hl).
      destruct (head_is_Some (lokiLogs s)) as [_ Hh]. destruct (Hh Hne) as [x ->].
      destruct (last_is_Some (lokiLogs s)) as [_ Hla]. destruct (Hla Hne) as [y ->].
      split; [|done]. intros H. by apply range_not_empty in H.
  - intros Hh Hl Hd1 Ht1 Hd2 Ht2 E1 E2. rewrite Hh, Hl, E1, E2.
    rewrite !timeOfDay_second_field by done.
    rewrite decide_False; [done|]. intros E. apply length_zero_iff_nil in E.
    by rewrite E in Hh.
  - intros Hh Hl H1 H2. rewrite Hh, Hl. rewrite !timeOfDay_one_field by done.
    rewrite decide_False; [done|]. intros E. apply length_zero_iff_nil in E.
    by rewrite E in Hh.
Qed.

Lemma lokiTimeRange_shows_both_ends_witness :
  lokiTimeRange
    (set_lokiLogs
       [mkLogEntry 1699998000000 "ai" "a" "2023-11-14 21:40:00";
        mkLogEntry 1699999000000 "base" "b" "2023-11-14 21:56:40"] initialStore)
  = "21:40:00 ~ 21:56:40"%string.
Proof.
  destruct (lokiTimeRange_shows_both_ends
              (set_lokiLogs
                 [mkLogEntry 1699998000000 "ai" "a" "2023-11-14 21:40:00";
                  mkLogEntry 1699999000000 "base" "b" "2023-11-14 21:56:40"]
                 initialStore)
              (mkLogEntry 1699998000000 "ai" "a" "2023-11-14 21:40:00")
              (mkLogEntry 1699999000000 "base" "b" "2023-11-14 21:56:40")
              "2023-11-14" "21:40:00" "2023-11-14" "21:56:40") as (_ & H & _).
  apply H; try reflexivity; simpl; repeat split; discriminate.
Defined.

(** X14. [refreshLokiLogs] ends with the toast "refreshed" whatever
    happened: after a rejected query the error toast is followed by the
    success toast although the window is as it was, and when a
    [loadNewerLogs] is already in flight the toast is shown without any query
    being sent. *)
Theorem refreshLokiLogs_always_reports_success
    (b : Build) (now1 now2 : Z) (r : ApiResult) (s : Store) :
  let out := refreshLokiLogs_seq b now1 now2 r s in
  out.1 = (loadNewerLogs_seq b now1 now2 r s).1.1
  ∧ last out.2 = Some (Toast "日志已刷新" "success")
  ∧ (∀ message, r = Rejected message → lokiLoadingNewer s = false →
       same_window s out.1
       ∧ ∃ query, fetch_caller query = Some NewerCaller
           ∧ out.2 = [query; ConsoleError message; Toast message "error";
                      Toast "日志已刷新" "success"])
  ∧ (lokiLoadingNewer s = true → out = (s, [Toast "日志已刷新" "success"])).
Proof.
  intros out. unfold out, refreshLokiLogs_seq.
  destruct (loadNewerLogs_seq b now1 now2 r s) as [[s' effs] ret] eqn:E. simpl.
  split; [done|]. split; [apply last_snoc|]. split.
  - intros message -> Hg. unfold loadNewerLogs_seq, loadNewerLogs_begin in E.
    rewrite Hg in E. simpl in E. simplify_eq. split; [done|].
    eexists. split; [|reflexivity]. done.
  - intros Hg. unfold loadNewerLogs_seq, loadNewerLogs_begin in E.
    rewrite Hg in E. by simplify_eq.
Qed.

Lemma refreshLokiLogs_always_reports_success_witness :
  (refreshLokiLogs_seq GlobalBuild 1700000000000 1700000000000 (Rejected "down")
     (set_lokiLoadingNewer true populatedStore)).2
  = [Toast "日志已刷新" "success"].
Proof.
  destruct (refreshLokiLogs_always_reports_success GlobalBuild 1700000000000
              1700000000000 (Rejected "down")
              (set_lokiLoadingNewer true populatedStore)) as (_ & _ & _ & H).
  by rewrite H.
Defined.

(** X15. [clearLokiLogs] clears the window but cancels nothing.  Clearing
    twice is clearing once; after it [loadOlderLogs] does nothing and
    [loadNewerLogs] asks for the last hour; the in-flight flags stay as they
    were; and the answer of a query that was outstanding is merged into the
    cleared window whole: the window is then that batch, sorted. *)
Theorem clearLokiLogs_cancels_nothing
    (b : Build) (now1 now2 : Z) (newLogs : list LogEntry) (prepend : bool)
    (s : Store) :
  clearLokiLogs (clearLokiLogs s) = clearLokiLogs s
  ∧ loadOlderLogs_begin b (clearLokiLogs s) = None
  ∧ (lokiLoadingNewer s = false →
     ∃ s1, loadNewerLogs_begin now1 now2 (clearLokiLogs s)
           = Some (s1, mkFetchCall (now1 - 3600000) now2 forward false))
  ∧ lokiLoadingOlder (clearLokiLogs s) = lokiLoadingOlder s
  ∧ lokiLoadingNewer (clearLokiLogs s) = lokiLoadingNewer s
  ∧ lokiLogs (mergeLogs newLogs prepend (clearLokiLogs s)).1
    = sort_by_timestamp newLogs
  ∧ (mergeLogs newLogs prepend (clearLokiLogs s)).2 = length newLogs.
Proof.
  split; [done|]. split.
  { unfold loadOlderLogs_begin. simpl. by rewrite !orb_true_r. }
  split.
  { intros Hg. unfold loadNewerLogs_begin. simpl. rewrite Hg. by eexists. }
  split; [done|]. split; [done|].
  assert (Hu : uniqueNew newLogs (clearLokiLogs s) = newLogs).
  { apply uniqueNew_all. intros a c _ Hc. simpl in Hc. by apply elem_of_nil in Hc. }
  rewrite mergeLogs_count, Hu. split; [|done].
  destruct newLogs as [|x l]; [by destruct prepend|].
  rewrite mergeLogs_something_new by (by rewrite Hu).
  rewrite merged_logs, Hu. simpl. destruct prepend; [|done].
  by rewrite app_nil_r.
Qed.

Lemma clearLokiLogs_cancels_nothing_witness :
  ∃ s1, loadNewerLogs_begin 1700000000000 1700000000000 (clearLokiLogs populatedStore)
        = Some (s1, mkFetchCall 1699996400000 1700000000000 forward false).
Proof.
  destruct (clearLokiLogs_cancels_nothing GlobalBuild 1700000000000 1700000000000
              [] false populatedStore) as (_ & _ & H & _).
  apply H. reflexivity.
Defined.

(** ** A backend that respects the range *)

Section in_range.

Implicit Types (s : Store) (newLogs : list LogEntry).

Lemma different_timestamp_identity (a c : LogEntry) :
  timestamp a ≠ timestamp c → identity a ≠ identity c.
Proof. unfold identity. intros H E. by simplify_eq. Qed.

(** On a sorted window whose bounds track it, every entry lies between the
    bounds. *)
Lemma tracked_window_between s e :
  nondecreasing (lokiLogs s) → bounds_track s → e ∈ lokiLogs s →
  lokiEarliestMs s ≤ timestamp e ≤ lokiLatestMs s.
Proof.
  intros Hs Hb He. apply nondecreasing_StronglySorted in Hs.
  assert (Hne : lokiLogs s ≠ []) by (intros E; rewrite E in He; by apply elem_of_nil in He).
  destruct (head_is_Some (lokiLogs s)) as [_ Hh]. destruct (Hh Hne) as [x Hx].
  destruct (last_is_Some (lokiLogs s)) as [_ Hl]. destruct (Hl Hne) as [y Hy].
  destruct (Hb x y Hx Hy) as [-> ->]. split.
  - by eapply sorted_head_least.
  - by eapply sorted_last_greatest.
Qed.

Lemma merged_older_batch newLogs s :
  nondecreasing (lokiLogs s) → bounds_track s → lokiLogs s ≠ [] → newLogs ≠ [] →
  (∀ e, e ∈ newLogs → timestamp e ≤ lokiEarliestMs s - 1) →
  let out := mergeLogs newLogs true s in
  lokiLogs out.1 = sort_by_timestamp newLogs ++ lokiLogs s
  ∧ lokiEarliestMs out.1 < lokiEarliestMs s
  ∧ lokiLatestMs out.1 = lokiLatestMs s
  ∧ lokiCanLoadOlder out.1 = lokiCanLoadOlder s
  ∧ out.2 = length newLogs.
Proof.
  intros Hs Hb Hne Hnew Hrange out. unfold out.
  assert (Hlt : ∀ a c, a ∈ newLogs → c ∈ lokiLogs s → timestamp a < timestamp c).
  { intros a c Ha Hc. pose proof (Hrange a Ha).
    pose proof (tracked_window_between s c Hs Hb Hc). lia. }
  assert (Hu : uniqueNew newLogs s = newLogs).
  { apply uniqueNew_all. intros a c Ha Hc. apply different_timestamp_identity.
    specialize (Hlt a c Ha Hc). lia. }
  rewrite mergeLogs_count, Hu.
  rewrite mergeLogs_something_new by (by rewrite Hu).
  assert (Hlogs : lokiLogs (merged newLogs true s)
                  = sort_by_timestamp newLogs ++ lokiLogs s).
  { rewrite merged_logs, Hu. apply sort_app_in_order_l.
    - by apply nondecreasing_StronglySorted.
    - intros a c Ha Hc. specialize (Hlt a c Ha Hc). lia. }
  destruct (merged_bounds newLogs true s) as (f & l & Hf & Hl & -> & ->);
    [by rewrite Hu|].
  rewrite Hlogs in Hf, Hl.
  assert (Hsn : sort_by_timestamp newLogs ≠ []).
  { intros E. apply Hnew. apply Permutation_nil_r. by rewrite <- E, sort_by_timestamp_perm. }
  split; [done|]. split; [|split; [|split; [|done]]].
  - destruct (sort_by_timestamp newLogs) as [|x k] eqn:E; [done|].
    simpl in Hf. simplify_eq.
    assert (Hin : f ∈ newLogs).
    { rewrite <- (sort_by_timestamp_perm newLogs), E. by left. }
    specialize (Hrange f Hin). lia.
  - rewrite last_app in Hl.
    destruct (last (lokiLogs s)) as [y|] eqn:Ey; [|by apply last_None in Ey].
    simplify_eq. destruct (head_is_Some (lokiLogs s)) as [_ Hh].
    destruct (Hh Hne) as [x Hx]. by destruct (Hb x l Hx Ey) as [_ ->].
  - unfold merged. by rewrite updateBounds_canLoadOlder.
Qed.

Lemma merged_newer_batch newLogs s :
  nondecreasing (lokiLogs s) → bounds_track s → lokiLogs s ≠ [] →
  (∀ e, e ∈ newLogs → lokiLatestMs s + 1 ≤ timestamp e) →
  let out := mergeLogs newLogs false s in
  lokiLogs out.1 = lokiLogs s ++ sort_by_timestamp newLogs
  ∧ lokiEarliestMs out.1 = lokiEarliestMs s
  ∧ lokiLatestMs s ≤ lokiLatestMs out.1
  ∧ out.2 = length newLogs.
Proof.
  intros Hs Hb Hne Hrange out. unfold out.
  assert (Hlt : ∀ a c, a ∈ lokiLogs s → c ∈ newLogs → timestamp a < timestamp c).
  { intros a c Ha Hc. pose proof (Hrange c Hc).
    pose proof (tracked_window_between s a Hs Hb Ha). lia. }
  assert (Hu : uniqueNew newLogs s = newLogs).
  { apply uniqueNew_all. intros a c Ha Hc. apply different_timestamp_identity.
    specialize (Hlt c a Hc Ha). lia. }
  rewrite mergeLogs_count, Hu.
  destruct newLogs as [|x0 k0]; [by rewrite app_nil_r|].
  rewrite mergeLogs_something_new by (by rewrite Hu).
  assert (Hlogs : lokiLogs (merged (x0 :: k0) false s)
                  = lokiLogs s ++ sort_by_timestamp (x0 :: k0)).
  { rewrite merged_logs, Hu. apply sort_app_in_order.
    - by apply nondecreasing_StronglySorted.
    - intros a c Ha Hc. specialize (Hlt a c Ha Hc). lia. }
  destruct (merged_bounds (x0 :: k0) false s) as (f & l & Hf & Hl & -> & ->);
    [by rewrite Hu|].
  rewrite Hlogs in Hf, Hl.
  destruct (head_is_Some (lokiLogs s)) as [_ Hh]. destruct (Hh Hne) as [x Hx].
  destruct (last_is_Some (lokiLogs s)) as [_ Hla]. destruct (Hla Hne) as [y Hy].
  destruct (Hb x y Hx Hy) as [He Hlat].
  split; [done|]. split; [|split; [|done]].
  - rewrite head_app, Hx in Hf. by simplify_eq.
  - assert (Hin : l ∈ sort_by_timestamp (x0 :: k0)).
    { rewrite last_app in Hl.
      destruct (last (sort_by_timestamp (x0 :: k0))) as [z|] eqn:Ez.
      - simplify_eq. by apply last_Some_elem_of.
      - apply last_None in Ez. exfalso.
        assert (Hp : x0 :: k0 ≡ₚ []) by (by rewrite <- Ez, sort_by_timestamp_perm).
        by apply Permutation_nil_r in Hp. }
    rewrite sort_by_timestamp_perm in Hin. specialize (Hrange l Hin). lia.
Qed.

End in_range.

(** X16. Pages of history stack in front of the window.  On a sorted window
    whose bounds are its ends, when [loadOlderLogs] passes its guards and the
    backend answers with a non-empty batch inside the range asked for (no
    entry later than [lokiEarliestMs - 1]), the whole batch is added, sorted,
    in front of the entries that were there; [lokiEarliestMs] goes down,
    [lokiLatestMs] stays, [lokiCanLoadOlder] stays on and the in-flight flag
    is off again. *)
Theorem loadOlderLogs_stacks_history
    (b : Build) (newLogs : list LogEntry) (s : Store) :
  lokiLoadingOlder s = false → lokiCanLoadOlder s = true → lokiLogs s ≠ [] →
  nondecreasing (lokiLogs s) → bounds_track s → newLogs ≠ [] →
  (∀ e, e ∈ newLogs → timestamp e ≤ lokiEarliestMs s - 1) →
  let s' := (loadOlderLogs_seq b (Fulfilled (Some (Some newLogs))) s).1 in
  lokiLogs s' = sort_by_timestamp newLogs ++ lokiLogs s
  ∧ lokiEarliestMs s' < lokiEarliestMs s
  ∧ lokiLatestMs s' = lokiLatestMs s
  ∧ lokiCanLoadOlder s' = true
  ∧ lokiLoadingOlder s' = false.
Proof.
  intros H1 H2 H3 Hs Hb Hnew Hrange s'. unfold s', loadOlderLogs_seq.
  rewrite (loadOlderLogs_begin_sends b s H1 H2 H3). simpl.
  pose proof (merged_older_batch newLogs (set_lokiLoadingOlder true s))
    as (M1 & M2 & M3 & M4 & M5); try done.
  destruct (mergeLogs newLogs true (set_lokiLoadingOlder true s)) as [s2 n].
  simpl in *. rewrite decide_False.
  - simpl. repeat split; try done. congruence.
  - subst n. intros E. by apply length_zero_iff_nil in E.
Qed.

Lemma loadOlderLogs_stacks_history_witness :
  lokiLogs
    (loadOlderLogs_seq GlobalBuild
       (Fulfilled (Some (Some [entry 1699997000000 "z"; entry 1699996000000 "y"])))
       populatedStore).1
  = [entry 1699996000000 "y"; entry 1699997000000 "z"] ++ lokiLogs populatedStore.
Proof.
  apply (loadOlderLogs_stacks_history GlobalBuild
           [entry 1699997000000 "z"; entry 1699996000000 "y"] populatedStore);
    try done.
  - apply StronglySorted_nondecreasing. repeat constructor; unfold ts_le; simpl; lia.
  - intros first final Hf Hl. simpl in Hf, Hl. by simplify_eq.
  - intros e He. apply elem_of_cons in He as [->|He];
      [|apply list_elem_of_singleton in He as ->]; simpl; lia.
Defined.

(** X17. New lines arrive at the bottom.  On a sorted, non-empty window
    whose bounds are its ends, when [loadNewerLogs] is not in flight and the
    backend answers inside the range asked for (no entry earlier than
    [lokiLatestMs + 1]), the whole batch is added, sorted, after the entries
    that were there, its length is returned, [lokiEarliestMs] stays and
    [lokiLatestMs] does not go down. *)
Theorem loadNewerLogs_appends_new_lines
    (b : Build) (now1 now2 : Z) (newLogs : list LogEntry) (s : Store) :
  lokiLoadingNewer s = false → lokiLogs s ≠ [] →
  nondecreasing (lokiLogs s) → bounds_track s →
  (∀ e, e ∈ newLogs → lokiLatestMs s + 1 ≤ timestamp e) →
  let out := loadNewerLogs_seq b now1 now2 (Fulfilled (Some (Some newLogs))) s in
  lokiLogs out.1.1 = lokiLogs s ++ sort_by_timestamp newLogs
  ∧ out.2 = Some (length newLogs)
  ∧ lokiEarliestMs out.1.1 = lokiEarliestMs s
  ∧ lokiLatestMs s ≤ lokiLatestMs out.1.1
  ∧ lokiLoadingNewer out.1.1 = false.
Proof.
  intros Hg Hne Hs Hb Hrange out. unfold out, loadNewerLogs_seq, loadNewerLogs_begin.
  rewrite Hg. simpl.
  pose proof (merged_newer_batch newLogs (set_lokiLoadingNewer true s))
    as (M1 & M2 & M3 & M4); try done.
  destruct (mergeLogs newLogs false (set_lokiLoadingNewer true s)) as [s2 n].
  simpl in *. subst n. done.
Qed.

Lemma loadNewerLogs_appends_new_lines_witness :
  lokiLogs
    (loadNewerLogs_seq GlobalBuild 1700000000000 1700000000000
       (Fulfilled (Some (Some [entry 1699999900000 "d"; entry 1699999500000 "c"])))
       populatedStore).1.1
  = lokiLogs populatedStore ++ [entry 1699999500000 "c"; entry 1699999900000 "d"].
Proof.
  apply (loadNewerLogs_appends_new_lines GlobalBuild 1700000000000 1700000000000
           [entry 1699999900000 "d"; entry 1699999500000 "c"] populatedStore);
    try done.
  - apply StronglySorted_nondecreasing. repeat constructor; unfold ts_le; simpl; lia.
  - intros first final Hf Hl. simpl in Hf, Hl. by simplify_eq.
  - intros e He. apply elem_of_cons in He as [->|He];
      [|apply list_elem_of_singleton in He as ->]; simpl; lia.
Defined.

(** ** The transport *)

Section transport.

Lemma rethrow_rejects (error_message : string) :
  ∃ message, rethrow error_message = Rejected message
             ∧ message ≠ "Failed to fetch"%string
             ∧ (error_message ≠ "Failed to fetch"%string → message = error_message).
Proof.
  unfold rethrow. case_decide as H.
  - eexists. split; [done|]. split; [done|]. intros Hn. by destruct Hn.
  - by exists error_message.
Qed.

Lemma request_rejected_or_code_0 (o : HttpOutcome) :
  (∃ body_message d, o = JsonBody (Some 0) body_message d ∧ request o = Fulfilled d)
  ∨ (∃ message, request o = Rejected message ∧ message ≠ "Failed to fetch"%string).
Proof.
  destruct o as [e|e|code body_message d]; simpl.
  - right. destruct (rethrow_rejects e) as (message & -> & H & _). by exists message.
  - right. destruct (rethrow_rejects e) as (message & -> & H & _). by exists message.
  - case_decide as Hc.
    + left. subst. by exists body_message, d.
    + right. match goal with |- context [rethrow ?x] =>
        destruct (rethrow_rejects x) as (message & -> & H & _) end.
      by exists message.
Qed.

Lemma any_char_free (c : ascii) (x : N) (s : string) :
  (∀ n, pretty_N_char n ≠ c) → char_free c s → char_free c (pretty_N_go x s).
Proof.
  intros Hc. revert s. induction (N.lt_wf_0 x) as [x _ IH]; intros s Hs.
  destruct (decide (x = 0%N)) as [->|Hx].
  - by rewrite pretty_N_go_0.
  - rewrite pretty_N_go_step by lia. apply IH.
    + apply N.div_lt; lia.
    + split; [apply Hc|done].
Qed.

Lemma pretty_Z_amp_free (z : Z) : char_free "&" (pretty z).
Proof.
  assert (Hc : ∀ n, pretty_N_char n ≠ "&"%char).
  { intros n. unfold pretty_N_char. by repeat case_match. }
  assert (HN : ∀ x : N, char_free "&" (pretty x)).
  { intros x. unfold pretty, pretty_N. case_decide; [by split|].
    by apply any_char_free. }
  destruct z as [|p|p]; unfold pretty, pretty_Z.
  - by split.
  - apply HN.
  - split; [done|apply HN].
Qed.

Lemma char_split (c : ascii) (s1 s2 r1 r2 : string) :
  char_free c s1 → char_free c s2 →
  (s1 +:+ String c r1)%string = (s2 +:+ String c r2)%string → s1 = s2 ∧ r1 = r2.
Proof.
  revert s2. induction s1 as [|d s1 IH]; intros [|d' s2] H1 H2 Heq;
    simpl in *; simplify_eq.
  - done.
  - by destruct H2.
  - by destruct H1.
  - destruct H1 as [_ H1], H2 as [_ H2].
    destruct (IH s2 H1 H2) as [-> ->]; done.
Qed.

Lemma append_inj_l (p x y : string) : (p +:+ x)%string = (p +:+ y)%string → x = y.
Proof. induction p as [|c p IH]; simpl; intros H; [done|]. apply IH. by simplify_eq. Qed.

End transport.

(** X18. [request] resolves only for a body whose [code] is the number 0,
    and then with that body; in every other case it rejects, with the message
    of the error or of the body (the default when the body has none), and
    never with the message "Failed to fetch", which it replaces.  So whatever
    else the transport gives, [fetchLokiLogs] leaves the window as it was,
    returns 0 and toasts once. *)
Theorem request_resolves_only_on_code_0
    (o : HttpOutcome) (prepend : bool) (s : Store) :
  (∀ d, request o = Fulfilled d ↔ ∃ body_message, o = JsonBody (Some 0) body_message d)
  ∧ (∀ message, request o = Rejected message → message ≠ "Failed to fetch"%string)
  ∧ (∀ code d, code ≠ Some 0 →
       request (JsonBody code None d) = Rejected "请求失败"
       ∧ request (JsonBody code (Some ""%string) d) = Rejected "请求失败")
  ∧ ((∀ body_message d, o ≠ JsonBody (Some 0) body_message d) →
     let out := fetchLokiLogs_resume prepend (request o) s in
     out.1.1 = s ∧ out.1.2 = 0%nat ∧ toast_count out.2 = 1%nat).
Proof.
  split; [|split; [|split]].
  - intros d. split.
    + intros H. destruct (request_rejected_or_code_0 o)
        as [(bm & d' & -> & E)|(message & E & _)]; [|congruence].
      exists bm. congruence.
    + intros [bm ->]. done.
  - intros message H. destruct (request_rejected_or_code_0 o)
      as [(bm & d' & -> & E)|(message' & E & Hn)]; congruence.
  - intros code d Hc. simpl. rewrite decide_False by done. done.
  - intros Hn out. unfold out.
    destruct (request_rejected_or_code_0 o)
      as [(bm & d' & -> & E)|(message & -> & _)].
    + by destruct (Hn bm d').
    + done.
Qed.

Lemma request_resolves_only_on_code_0_witness :
  fetchLokiLogs_resume false
    (request (JsonBody (Some 500) (Some "boom"%string) (Some (Some [entry 5 "x"]))))
    populatedStore
  = (populatedStore, 0%nat, [ConsoleError "boom"; Toast "boom" "error"]).
Proof.
  destruct (request_resolves_only_on_code_0
              (JsonBody (Some 500) (Some "boom"%string) (Some (Some [entry 5 "x"])))
              false populatedStore) as (_ & _ & _ & H).
  destruct H as (H1 & H2 & H3); [done|]. reflexivity.
Defined.

(** X19. The URL of a query determines the query: two calls of
    [api.fetchLokiLogs] build the same URL only for the same start, end,
    limit and direction. *)
Theorem fetchLokiLogs_url_determines_query
    (start1 end1 limit1 start2 end2 limit2 : Z) (d1 d2 : Direction) :
  fetchLokiLogs_url start1 end1 limit1 d1 = fetchLokiLogs_url start2 end2 limit2 d2 →
  start1 = start2 ∧ end1 = end2 ∧ limit1 = limit2 ∧ d1 = d2.
Proof.
  unfold fetchLokiLogs_url. intros H.
  apply append_inj_l in H.
  change ("&end_ms=" +:+ ?r)%string with (String "&" ("end_ms=" +:+ r))%string in H.
  apply char_split in H as [Hs H]; try apply pretty_Z_amp_free.
  apply append_inj_l in H.
  change ("&limit=" +:+ ?r)%string with (String "&" ("limit=" +:+ r))%string in H.
  apply char_split in H as [He H]; try apply pretty_Z_amp_free.
  apply append_inj_l in H.
  change ("&direction=" +:+ ?r)%string
    with (String "&" ("direction=" +:+ r))%string in H.
  apply char_split in H as [Hl H]; try apply pretty_Z_amp_free.
  apply (inj pretty) in Hs, He, Hl.
  repeat split; try done. by destruct d1, d2.
Qed.

Lemma fetchLokiLogs_url_determines_query_witness :
  fetchLokiLogs_url 1699996400000 1700000000000 50 backward
  = "/admin/loki/logs?start_ms=1699996400000&end_ms=1700000000000&limit=50&direction=backward"%string
  ∧ (1699996400000 = 1699996400000 ∧ 1700000000000 = 1700000000000
     ∧ 50 = 50 ∧ backward = backward).
Proof.
  split; [by vm_compute|].
  apply (fetchLokiLogs_url_determines_query 1699996400000 1700000000000 50
           1699996400000 1700000000000 50 backward backward).
  reflexivity.
Defined.

(** ** The toasts *)

Lemma elem_of_delete_other {A} (l : list A) (i : nat) (y z : A) :
  y ∈ l → l !! i = Some z → y ≠ z → y ∈ delete i l.
Proof.
  intros Hy Hi Hne. apply list_elem_of_lookup in Hy as [j Hj].
  destruct (decide (j < i)%nat) as [Hlt|Hge].
  - apply list_elem_of_lookup. exists j. by rewrite list_lookup_delete_lt.
  - assert (j ≠ i) by (intros ->; congruence).
    apply list_elem_of_lookup. exists (pred j).
    rewrite list_lookup_delete_ge by lia.
    by replace (S (pred j)) with j by lia.
Qed.

Lemma toast_step_timers (e : ToastEvent) (t : ToastState) :
  (∀ x, x ∈ toasts t → toast_id x ∈ toast_timers t) →
  ∀ x, x ∈ toasts (toast_step e t) → toast_id x ∈ toast_timers (toast_step e t).
Proof.
  intros Ht x. destruct e as [now message type|i]; simpl.
  - unfold showToast. simpl. rewrite !elem_of_app.
    intros [Hx|Hx]; [left; by apply Ht|right].
    apply list_elem_of_singleton in Hx as ->. simpl. by left.
  - unfold toastTimeout. destruct (toast_timers t !! i) as [id|] eqn:Hi; [|apply Ht].
    simpl. rewrite list_elem_of_filter. intros [Hne Hx].
    eapply elem_of_delete_other; [by apply Ht|exact Hi|done].
Qed.

(** X20. A toast never outlives its timers: however toasts are shown and
    timers fire, every toast on screen has a timer pending that will remove
    it, so when no timer is pending no toast is on screen.  When a timer
    fires, every toast that carries its id is removed, also one shown in the
    same millisecond by another call, and the other toasts stay in their
    order. *)
Theorem toasts_never_outlive_timers (es : list ToastEvent) (i : nat) (id : Z) :
  let t := toast_run es (mkToastState [] []) in
  (∀ x, x ∈ toasts t → toast_id x ∈ toast_timers t)
  ∧ (toast_timers t = [] → toasts t = [])
  ∧ (toast_timers t !! i = Some id →
     toasts (toastTimeout i t) = filter (λ x, toast_id x ≠ id) (toasts t)
     ∧ (∀ x, x ∈ toasts (toastTimeout i t) → toast_id x ≠ id)
     ∧ length (toast_timers (toastTimeout i t)) = pred (length (toast_timers t))).
Proof.
  intros t.
  assert (Hinv : ∀ x, x ∈ toasts t → toast_id x ∈ toast_timers t).
  { unfold t. induction es as [|e es IH] using rev_ind.
    - intros x Hx. by apply elem_of_nil in Hx.
    - unfold toast_run. rewrite foldl_app. simpl. by apply toast_step_timers. }
  split; [done|]. split.
  - intros Hnil. destruct (toasts t) as [|x l] eqn:E; [done|].
    assert (Hx : toast_id x ∈ toast_timers t) by (apply Hinv; by left).
    rewrite Hnil in Hx. by apply elem_of_nil in Hx.
  - intros Hi. unfold toastTimeout. rewrite Hi. simpl. split; [done|]. split.
    + intros x Hx. by apply list_elem_of_filter in Hx as [? _].
    + rewrite length_delete by (by eexists). lia.
Qed.

Lemma toasts_never_outlive_timers_witness :
  toasts (toastTimeout 0
            (toast_run [ShowToast 1000 "saved" "success"; ShowToast 1000 "down" "error";
                        ShowToast 1001 "again" "info"]
               (mkToastState [] [])))
  = [mkToastItem 1001 "again" "info"].
Proof.
  destruct (toasts_never_outlive_timers
              [ShowToast 1000 "saved" "success"; ShowToast 1000 "down" "error";
               ShowToast 1001 "again" "info"] 0 1000) as (_ & _ & H).
  destruct H as (H & _); [reflexivity|]. rewrite H. reflexivity.
Defined.

(** ** The application *)

Section application.

Implicit Types (b : Build) (m : Machine) (s : Store) (a : App).

Lemma mergeLogs_zero_when_empty newLogs prepend s :
  zero_when_empty s → zero_when_empty (mergeLogs newLogs prepend s).1.
Proof.
  intros Hz. destruct (decide (uniqueNew newLogs s = [])) as [Hu|Hu].
  - rewrite mergeLogs_nothing_new by done. case_decide; [|done]. by destruct prepend.
  - intros Hnil. exfalso. apply Hu.
    pose proof (mergeLogs_perm newLogs prepend s) as Hp. rewrite Hnil in Hp.
    symmetry in Hp. apply Permutation_nil_r in Hp. by apply app_eq_nil in Hp as [_ ?].
Qed.

Lemma step_zero_when_empty b e m :
  (∀ now, e ≠ CallInit now) →
  zero_when_empty (store m) → zero_when_empty (store (step b e m)).
Proof.
  intros He Hz.
  destruct (step_entries b e m) as [(E1 & E2 & E3)|[[Hr _]|(n & p & E)]].
  - intros Hnil. rewrite E2, E3. apply Hz. by rewrite <- E1.
  - destruct e; try discriminate; [by destruct (He now)|done].
  - rewrite E. by apply mergeLogs_zero_when_empty.
Qed.

Lemma switchTab_zero_when_empty b tab now a :
  zero_when_empty (store (loki a)) →
  zero_when_empty (store (loki (switchTab b tab now a))).
Proof.
  intros Hz. unfold switchTab. case_decide; simpl.
  - case_decide as Hl.
    + apply length_zero_iff_nil in Hl. specialize (Hz Hl).
      unfold startLokiPolling. simpl. intros _. by case_match.
    + unfold startLokiPolling. by case_match.
  - unfold stopLokiPolling. by case_match.
Qed.

Lemma app_step_zero_when_empty b ev a :
  calls_init ev = false →
  zero_when_empty (store (loki a)) →
  zero_when_empty (store (loki (app_step b ev a))).
Proof.
  intros Hev Hz. destruct ev as [tab now| |e]; simpl.
  - by apply switchTab_zero_when_empty.
  - unfold stopLokiPolling. by case_match.
  - apply step_zero_when_empty; [|done]. intros now ->. discriminate.
Qed.

End application.

(** X21. In the application as the main entry wires it, where
    [initLokiLogs] is called only by [switchTab] and only on an empty window,
    an empty window always has both bounds at 0, whatever tabs are chosen,
    loaders called and queries answered.  So on an empty window
    [loadNewerLogs] asks for the last hour. *)
Theorem app_empty_window_has_zero_bounds
    (b : Build) (evs : list AppEvent) (now1 now2 : Z) :
  forallb (λ ev, negb (calls_init ev)) evs = true →
  let s := store (loki (app_run b evs initialApp)) in
  (lokiLogs s = [] → lokiEarliestMs s = 0 ∧ lokiLatestMs s = 0)
  ∧ (lokiLogs s = [] → lokiLoadingNewer s = false →
     ∃ s1, loadNewerLogs_begin now1 now2 s
           = Some (s1, mkFetchCall (now1 - 3600000) now2 forward false)).
Proof.
  intros Hevs s.
  assert (Hz : zero_when_empty s).
  { unfold s. induction evs as [|ev evs IH] using rev_ind; [done|].
    rewrite forallb_app in Hevs. apply andb_true_iff in Hevs as [Hevs Hev].
    simpl in Hev. rewrite andb_true_r in Hev. apply negb_true_iff in Hev.
    unfold app_run. rewrite foldl_app. simpl.
    apply app_step_zero_when_empty; [done|]. by apply IH. }
  split; [exact Hz|]. intros Hnil Hg. destruct (Hz Hnil) as [_ Hl].
  unfold loadNewerLogs_begin. rewrite Hg. simpl. rewrite Hl.
  rewrite decide_False by lia. by eexists.
Qed.

Lemma app_empty_window_has_zero_bounds_witness :
  lokiLogs (store (loki (app_run ModuleBuild reopenedEmpty initialApp))) = []
  ∧ lokiLatestMs (store (loki (app_run ModuleBuild reopenedEmpty initialApp))) = 0.
Proof.
  split; [by vm_compute|].
  destruct (app_empty_window_has_zero_bounds ModuleBuild reopenedEmpty 0 0) as [H _].
  - reflexivity.
  - apply H. by vm_compute.
Defined.

(** X22. [switchTab] arms the poller exactly when the logs tab is chosen.
    It sends the query of [initLokiLogs] exactly when the logs tab is chosen
    and the window is empty, also while an earlier one is still outstanding,
    and never a query of another loader.  Leaving the logs tab stops the
    poller, cancels no outstanding query and leaves the window as it is. *)
Theorem switchTab_loads_and_polls (b : Build) (tab : string) (now : Z) (a : App) :
  let a' := switchTab b tab now a in
  activeTab a' = tab
  ∧ lokiPollTimer (store (loki a')) = bool_decide (tab = "logs"%string)
  ∧ fetches_by InitCaller (effects (loki a'))
    = (fetches_by InitCaller (effects (loki a))
       + if bool_decide (tab = "logs"%string)
            && bool_decide (length (lokiLogs (store (loki a))) = 0%nat)
         then 1 else 0)%nat
  ∧ fetches_by OlderCaller (effects (loki a'))
    = fetches_by OlderCaller (effects (loki a))
  ∧ fetches_by NewerCaller (effects (loki a'))
    = fetches_by NewerCaller (effects (loki a))
  ∧ (tab ≠ "logs"%string →
     pending (loki a') = pending (loki a)
     ∧ same_window (store (loki a)) (store (loki a'))).
Proof.
  intros a'. unfold a', switchTab.
  destruct (decide (tab = "logs"%string)) as [Ht|Ht].
  - rewrite (bool_decide_eq_true_2 _ Ht). simpl.
    destruct (decide (length (lokiLogs (store (loki a))) = 0%nat)) as [Hl|Hl].
    + rewrite (bool_decide_eq_true_2 _ Hl). unfold call_initLokiLogs. simpl.
      rewrite !fetches_by_app, !fetches_by_one. simpl.
      unfold startLokiPolling. simpl.
      destruct (lokiPollTimer (store (loki a))) eqn:E; simpl;
        repeat split; try done; lia.
    + rewrite (bool_decide_eq_false_2 _ Hl). unfold startLokiPolling.
      destruct (lokiPollTimer (store (loki a))) eqn:E; simpl;
        repeat split; try done; lia.
  - rewrite (bool_decide_eq_false_2 _ Ht). simpl. unfold stopLokiPolling.
    destruct (lokiPollTimer (store (loki a))) eqn:E; simpl;
      repeat split; try done; lia.
Qed.

Lemma switchTab_loads_and_polls_witness :
  pending (loki (switchTab ModuleBuild "list" 1700000050000
                   (app_run ModuleBuild [SwitchTab "logs" 1700000000000] initialApp)))
  = [AwaitingApi InitCaller
       (mkFetchCall 1699996400000 1700000000000 forward false)].
Proof.
  destruct (switchTab_loads_and_polls ModuleBuild "list" 1700000050000
              (app_run ModuleBuild [SwitchTab "logs" 1700000000000] initialApp))
    as (_ & _ & _ & _ & _ & H).
  destruct H as [H _]; [done|]. rewrite H. reflexivity.
Defined.

(** ** Keys, counts and queries *)

(** X23. The string key identifies an entry as the pair of timestamp and
    raw text does: two entries get the same key exactly when they have the
    same timestamp and the same raw text, whatever bars the raw text
    contains. *)
Theorem key_identifies_entry (a c : LogEntry) :
  key a = key c ↔ timestamp a = timestamp c ∧ raw a = raw c.
Proof.
  rewrite <- identity_key. unfold identity. split.
  - intros H. by simplify_eq.
  - by intros [-> ->].
Qed.

(** X24. The count [fetchLokiLogs] returns tells what happened to the
    window: the window has grown by exactly that many entries, and a count of
    0 means the entries and both bounds are as they were. *)
Theorem fetchLokiLogs_count_tells_growth (prepend : bool) (r : ApiResult) (s : Store) :
  let out := fetchLokiLogs_resume prepend r s in
  length (lokiLogs out.1.1) = (length (lokiLogs s) + out.1.2)%nat
  ∧ (out.1.2 = 0%nat → same_entries s out.1.1)
  ∧ (out.1.2 = 0%nat ↔ lokiLogs out.1.1 = lokiLogs s).
Proof.
  intros out. unfold out.
  assert (Hlen : length (lokiLogs (fetchLokiLogs_resume prepend r s).1.1)
                 = (length (lokiLogs s) + (fetchLokiLogs_resume prepend r s).1.2)%nat).
  { destruct r as [message|[[newLogs|]|]]; simpl; try lia.
    pose proof (mergeLogs_perm newLogs prepend s) as Hp.
    pose proof (mergeLogs_count newLogs prepend s) as Hc.
    destruct (mergeLogs newLogs prepend s) as [s' n]. simpl in *.
    rewrite Hp, length_app. lia. }
  assert (Hzero : (fetchLokiLogs_resume prepend r s).1.2 = 0%nat →
                  same_entries s (fetchLokiLogs_resume prepend r s).1.1).
  { destruct r as [message|[[newLogs|]|]]; simpl; try done.
    pose proof (mergeLogs_count newLogs prepend s) as Hc.
    destruct (decide (uniqueNew newLogs s = [])) as [Hu|Hu].
    - pose proof (mergeLogs_nothing_new newLogs prepend s Hu) as Hm.
      destruct (mergeLogs newLogs prepend s) as [s' n]. simpl in *. subst s'.
      intros _. by repeat case_match.
    - destruct (mergeLogs newLogs prepend s) as [s' n]. simpl in *.
      intros ->. symmetry in Hc. by apply length_zero_iff_nil in Hc. }
  split; [done|]. split; [done|]. split.
  - intros H. by destruct (Hzero H) as [-> _].
  - intros H. rewrite H in Hlen. lia.
Qed.

Lemma fetchLokiLogs_count_tells_growth_witness :
  same_entries populatedStore
    (fetchLokiLogs_resume false (Fulfilled (Some (Some [entry 1699999000000 "b"])))
       populatedStore).1.1.
Proof.
  destruct (fetchLokiLogs_count_tells_growth false
              (Fulfilled (Some (Some [entry 1699999000000 "b"]))) populatedStore)
    as (_ & H & _).
  apply H. by vm_compute.
Defined.

Lemma call_loadOlderLogs_queries b m :
  Forall (query_ok b) (effects m) → Forall (query_ok b) (effects (call_loadOlderLogs b m)).
Proof.
  intros H. unfold call_loadOlderLogs, loadOlderLogs_begin.
  destruct (_ || _ || _); simpl; [done|].
  apply Forall_app. split; [done|]. constructor; [|done]. simpl.
  repeat split. lia.
Qed.

Lemma call_loadNewerLogs_queries b now1 now2 m :
  Forall (query_ok b) (effects m) →
  Forall (query_ok b) (effects (call_loadNewerLogs b now1 now2 m)).
Proof.
  intros H. unfold call_loadNewerLogs, loadNewerLogs_begin.
  destruct (lokiLoadingNewer _); simpl; [done|].
  apply Forall_app. split; [done|]. by constructor.
Qed.

Lemma step_queries b e m :
  Forall (query_ok b) (effects m) → Forall (query_ok b) (effects (step b e m)).
Proof.
  intros H. destruct e; simpl; try done.
  - apply Forall_app. split; [done|]. constructor; [|done]. simpl.
    repeat split. lia.
  - by apply call_loadOlderLogs_queries.
  - by apply call_loadNewerLogs_queries.
  - apply Forall_app. split; [done|]. destruct (negb _); by repeat constructor.
  - unfold handleLokiScroll. destruct b; [done|].
    destruct geometry as [[[scrollTop scrollHeight] clientHeight]|]; [|done].
    set (m1 := mkMachine _ _ _).
    set (m2 := if _ && negb (lokiLoadingNewer (store m1)) then _ else m1).
    assert (H2 : Forall (query_ok ModuleBuild) (effects m2)).
    { unfold m2. case_match; [|done]. by apply call_loadNewerLogs_queries. }
    case_match; [|done]. by apply call_loadOlderLogs_queries.
  - case_match; [|done]. by apply call_loadNewerLogs_queries.
  - destruct (pending m !! i) as [[caller call|caller count]|]; try done.
    destruct r as [message|[[newLogs|]|]]; simpl.
    + apply Forall_app. split; [done|]. by repeat constructor.
    + destruct (mergeLogs newLogs (prepend call) (store m)). simpl.
      by rewrite app_nil_r.
    + by rewrite app_nil_r.
    + by rewrite app_nil_r.
  - destruct (pending m !! i) as [[caller call|caller count]|]; try done.
    destruct caller; simpl; apply Forall_app; (split; [done|]).
    + by repeat constructor.
    + destruct b; by repeat constructor.
    + destruct (_ && _); by repeat constructor.
Qed.

(** X25. Every query the event loop ever sends carries the page size of the
    build (50 or 500, so positive) and the direction of its loader, and a
    query of [initLokiLogs] or [loadOlderLogs] spans exactly one hour.  No
    query is sent when a query settles or a loader resumes: a rejected
    query is not retried. *)
Theorem queries_are_well_formed
    (b : Build) (es : list Event) (i : nat) (r : ApiResult) (c : Caller)
    (m : Machine) :
  Forall (query_ok b) (effects (run b es initialMachine))
  ∧ 0 < pageLimit b
  ∧ fetches_by c (effects (step b (ApiSettles i r) m)) = fetches_by c (effects m)
  ∧ fetches_by c (effects (step b (Resumes i) m)) = fetches_by c (effects m).
Proof.
  split; [|split; [by destruct b|split]].
  - induction es as [|e es IH] using rev_ind; [by constructor|].
    rewrite run_app. simpl. by apply step_queries.
  - simpl. destruct (pending m !! i) as [[caller call|caller count]|]; try done.
    pose proof (fetchLokiLogs_resume_no_fetch (prepend call) r (store m) c) as Hf.
    destruct (fetchLokiLogs_resume (prepend call) r (store m)) as [[s n] effs].
    simpl in *. rewrite fetches_by_app. lia.
  - simpl. destruct (pending m !! i) as [[caller call|caller count]|]; try done.
    destruct caller; simpl; rewrite fetches_by_app; unfold fetches_by at 2.
    + simpl. lia.
    + destruct b; simpl; lia.
    + destruct (_ && _); simpl; lia.
Qed.
